(** * The video.js player wrapper and its modal host

    A shallow embedding of [components/VideoPlayer.tsx] (the player wrapper)
    and of [Home] in [app/page.tsx] (the modal host), together with the part
    of React's component life cycle that the two rely on.

    The widget (video.js) is an external collaborator: every call into it, and
    every call the wrapper makes outwards, is recorded in a chronological list
    of [Call]s, and the claims of the specification are statements about that
    list and about the hook state of the component. *)

From Stdlib Require Import List String Bool Arith Lia QArith.
Import ListNotations.
Close Scope Q_scope.
Open Scope string_scope.
Open Scope list_scope.
#[local] Set Warnings "-register-all".

(** ** JavaScript values that cross the widget API *)

(** Option bags and source descriptors are object literals; an object is kept
    as the list of its fields in source order. *)
Inductive JSVal : Type :=
| JBool (b : bool)
| JStr (s : string)
| JObj (fields : list (string * JSVal)).

Fixpoint assoc (key : string) (fields : list (string * JSVal)) : option JSVal :=
  match fields with
  | [] => None
  | (k, v) :: rest => if String.eqb key k then Some v else assoc key rest
  end.

(** [o.key] *)
Definition field (key : string) (o : JSVal) : option JSVal :=
  match o with
  | JObj fields => assoc key fields
  | _ => None
  end.

(** [o.k1.k2...] *)
Fixpoint path (keys : list string) (o : JSVal) : option JSVal :=
  match keys with
  | [] => Some o
  | k :: rest => match field k o with
                 | Some v => path rest v
                 | None => None
                 end
  end.

(** Does the string [s] occur as a value anywhere inside [v]? *)
Fixpoint mentions (s : string) (v : JSVal) : bool :=
  match v with
  | JBool _ => false
  | JStr t => String.eqb s t
  | JObj fields =>
      (fix any (l : list (string * JSVal)) : bool :=
         match l with
         | [] => false
         | (_, x) :: rest => mentions s x || any rest
         end) fields
  end.

(** ** Identities *)

(** DOM elements, video.js players and video.js components are objects; the
    model names each by the number it received when it was created. *)
Definition Id := nat.

(** The callbacks a parent can hand over as [onClose]. *)
Inductive Callback : Type :=
| home_close                (* page.tsx:69   () => setIsOpen(false) *)
| other_callback (n : nat). (* any other parent's closure *)

(** The closures that VideoPlayer.tsx hands to the widget and to the DOM. *)
Inductive Handler : Type :=
| rate_click (player : Id) (rate : Q) (* :63-65  () => { player.playbackRate(rate) } *)
| set_ready (player : Id).            (* :78-80  () => { setIsReady(true) }, of the
                                         instance that constructed [player] *)

(** What a handler can be subscribed to. *)
Inductive Target : Type :=
| on_click (element : Id)               (* element.addEventListener('click', h) *)
| on_ready (player : Id)                (* player.ready(h): runs once *)
| on_event (player : Id) (name : string). (* player.on(name, h) *)

(** The function returned by the mount effect (:83-88). *)
Inductive Cleanup : Type :=
| dispose_player.

(** ** Observable calls *)

Inductive Call : Type :=
| videojs (element : Id) (options : JSVal) (player : Id)
    (* videojs(element, options), returning [player] *)
| addChild (player : Id) (name : string) (options : JSVal) (child : Id)
    (* player.controlBar.addChild(name, options), returning [child] *)
| addClass (component : Id) (className : string)
| createEl (player : Id) (tag : string) (rate : Q) (element : Id)
    (* player.controlBar.playbackRateMenuButton.createEl(tag,
       { innerHTML: <span class=vjs-menu-item-text>${rate}x</span> }),
       returning [element] *)
| addEventListener (element : Id) (type : string)
| qualityLevels (player : Id)
| ready (player : Id)
| playbackRate (player : Id) (rate : Q)
| src (player : Id) (source : JSVal)
| dispose (player : Id)
| invoke (callback : Callback)
    (* the onClose prop being called *)
| removeChild (element : Id)
    (* React taking the rendered element out of the document *)
| console_error (message : string).
    (* a console log line; VideoPlayer.tsx writes none *)

(** ** Store and effect monad *)

(** What lives outside the component: the supply of object identities, the
    subscriptions held by the widget and by DOM elements, and what the widget
    answers to [player.qualityLevels]: [None] when the quality-levels plugin
    is not installed (the property is undefined), [Some n] for a list of [n]
    levels. *)
Record Store : Type := mkStore {
  next_id : nat;
  levels : option nat;
  subs : list (Target * Handler)
}.

(** A computation reads and writes the store and emits calls. *)
Definition M (A : Type) : Type := Store -> A * Store * list Call.

Definition ret {A} (a : A) : M A := fun s => (a, s, []).

Definition bind {A B} (m : M A) (k : A -> M B) : M B :=
  fun s =>
    let '(a, s1, t1) := m s in
    let '(b, s2, t2) := k a s1 in
    (b, s2, t1 ++ t2).

Declare Scope m_scope.

Delimit Scope m_scope with m.

Notation "x <- m ;; k" := (bind m (fun x => k))
  (at level 61, m at next level, right associativity) : m_scope.

Notation "m ;; k" := (bind m (fun _ => k))
  (at level 61, right associativity) : m_scope.

Open Scope m_scope.

Definition call (c : Call) : M unit := fun s => (tt, s, [c]).

Definition fresh : M Id :=
  fun s => (next_id s, mkStore (S (next_id s)) (levels s) (subs s), []).

Definition subscribe (t : Target) (h : Handler) : M unit :=
  fun s => (tt, mkStore (next_id s) (levels s) (subs s ++ [(t, h)]), []).

Definition ask_levels : M (option nat) := fun s => (levels s, s, []).

Fixpoint forEach {A} (l : list A) (f : A -> M unit) : M unit :=
  match l with
  | [] => ret tt
  | a :: rest => f a ;; forEach rest f
  end.

(** ** The player wrapper: components/VideoPlayer.tsx *)

Record VideoPlayerProps : Type := mkProps {
  videoUrl : string;
  onClose : option Callback
}.

(** The hooks of one mounted instance (:25-27), its current props, and the
    cleanup function React keeps for the mount effect. *)
Record VideoPlayer : Type := mkPlayer {
  props : VideoPlayerProps;
  videoRef : option Id;        (* useRef<HTMLDivElement>(null) *)
  playerRef : option Id;       (* useRef<Player | null>(null) *)
  isReady : bool;              (* useState(false) *)
  cleanup : option Cleanup
}.

(** :35-45 *)
Definition playerOptions : JSVal :=
  JObj [ ("controls", JBool true);
         ("autoplay", JBool true);
         ("preload", JStr "auto");
         ("responsive", JBool true);
         ("fluid", JBool true);
         ("html5", JObj [ ("hls", JObj [ ("overrideNative", JBool true) ]) ]) ].

(** :58. The four rates are dyadic, so the numbers the code holds are exactly
    these rationals. *)
Definition playbackRates : list Q := [ (1 # 2); (1 # 1); (3 # 2); (2 # 1) ]%Q.

(** :94-97 *)
Definition hlsSource (url : string) : JSVal :=
  JObj [ ("src", JStr url); ("type", JStr "application/x-mpegURL") ].

(** :29-89, the body of the first effect. *)
Definition mountEffect (c : VideoPlayer) : M VideoPlayer :=
  match videoRef c with
  | None => ret c                                                   (* :31 *)
  | Some element =>
      player <- fresh ;;
      call (videojs element playerOptions player) ;;                (* :34 *)
      let c1 := mkPlayer (props c) (videoRef c) (Some player)       (* :48 *)
                         (isReady c) (cleanup c) in
      playbackRateButton <- fresh ;;
      call (addChild player "button" (JObj [("text", JStr "1x")])
                     playbackRateButton) ;;                         (* :52 *)
      call (addClass playbackRateButton "vjs-playback-rate-button") ;;
      forEach playbackRates (fun rate =>                            (* :59 *)
        menuItem <- fresh ;;
        call (createEl player "li" rate menuItem) ;;
        call (addEventListener menuItem "click") ;;
        subscribe (on_click menuItem) (rate_click player rate)) ;;
      installed <- ask_levels ;;                                    (* :70 *)
      match installed with
      | None => ret tt
      | Some n =>
          call (qualityLevels player) ;;
          if (0 <? n)%nat then
            qualityButton <- fresh ;;
            call (addChild player "button" (JObj [("text", JStr "Quality")])
                           qualityButton) ;;
            call (addClass qualityButton "vjs-quality-button")
          else ret tt
      end ;;
      call (ready player) ;;                                        (* :78 *)
      subscribe (on_ready player) (set_ready player) ;;
      ret (mkPlayer (props c1) (videoRef c1) (playerRef c1) (isReady c1)
                    (Some dispose_player))                          (* :83 *)
  end.

(** :83-88, the function the first effect returns. *)
Definition runCleanup (c : VideoPlayer) : M VideoPlayer :=
  match playerRef c with
  | Some player =>
      call (dispose player) ;;
      ret (mkPlayer (props c) (videoRef c) None (isReady c) (cleanup c))
  | None => ret c
  end.

(** :92-99, the body of the second effect. *)
Definition sourceEffect (c : VideoPlayer) : M unit :=
  match playerRef c with
  | Some player =>
      if isReady c then call (src player (hlsSource (videoUrl (props c))))
      else ret tt
  | None => ret tt
  end.

(** ** React's life cycle for this component

    The three rules of React (the repository pins react ^19) that the
    component relies on:
    - on mount the rendered elements exist and their refs are attached before
      any effect runs; effects then run in the order of their declaration;
    - an effect with dependencies [[]] runs after the mount only; an effect
      with dependencies [[videoUrl, isReady]] runs after the mount and after
      every render in which one of the two changed; setting a state variable
      to the value it already has renders nothing;
    - on unmount the rendered elements leave the document and their refs are
      cleared while the commit is applied; the cleanup function of a
      [useEffect] runs after the component has been removed from the DOM
      (a [useLayoutEffect] would be needed to run it before). *)

(** The [<video ref={videoRef}>] of :105 is rendered on every path, so the
    ref is attached whenever the component is mounted. *)
Definition mount (p : VideoPlayerProps) : M VideoPlayer :=
  element <- fresh ;;
  c <- mountEffect (mkPlayer p (Some element) None false None) ;;
  sourceEffect c ;;
  ret c.

(** The parent renders the component again with props [p]. *)
Definition rerender (p : VideoPlayerProps) (c : VideoPlayer) : M VideoPlayer :=
  let c' := mkPlayer p (videoRef c) (playerRef c) (isReady c) (cleanup c) in
  if String.eqb (videoUrl p) (videoUrl (props c)) then ret c'
  else sourceEffect c' ;; ret c'.

(** [setIsReady(b)] *)
Definition setIsReady (b : bool) (c : VideoPlayer) : M VideoPlayer :=
  if Bool.eqb (isReady c) b then ret c
  else
    let c' := mkPlayer (props c) (videoRef c) (playerRef c) b (cleanup c) in
    sourceEffect c' ;; ret c'.

(** React takes the rendered element out of the document and clears its ref;
    then the cleanup of the mount effect runs, when the effect returned one. *)
Definition unmount (c : VideoPlayer) : M unit :=
  match videoRef c with
  | Some element => call (removeChild element)
  | None => ret tt
  end ;;
  let c' := mkPlayer (props c) None (playerRef c) (isReady c) (cleanup c) in
  match cleanup c' with
  | Some dispose_player => runCleanup c' ;; ret tt
  | None => ret tt
  end.

(** ** Events reaching a mounted or unmounted wrapper *)

Definition Slot := option VideoPlayer.

Definition target_eqb (a b : Target) : bool :=
  match a, b with
  | on_click x, on_click y => Nat.eqb x y
  | on_ready x, on_ready y => Nat.eqb x y
  | on_event x n, on_event y m => Nat.eqb x y && String.eqb n m
  | _, _ => false
  end.

Definition one_shot (t : Target) : bool :=
  match t with
  | on_ready _ => true
  | _ => false
  end.

(** The handlers subscribed to [t], in subscription order. *)
Definition handlers (t : Target) (l : list (Target * Handler)) : list Handler :=
  map snd (filter (fun e => target_eqb t (fst e)) l).

(** Take the handlers of [t]; a ready queue is emptied when it is run. *)
Definition take (t : Target) : M (list Handler) :=
  fun s =>
    (handlers t (subs s),
     mkStore (next_id s) (levels s)
       (if one_shot t
        then filter (fun e => negb (target_eqb t (fst e))) (subs s)
        else subs s),
     []).

Definition owns (player : Id) (c : VideoPlayer) : bool :=
  match playerRef c with
  | Some q => Nat.eqb player q
  | None => false
  end.

(** A state setter of an instance that is no longer mounted does nothing. *)
Definition run_handler (h : Handler) (slot : Slot) : M Slot :=
  match h with
  | rate_click player rate => call (playbackRate player rate) ;; ret slot
  | set_ready player =>
      match slot with
      | Some c =>
          if owns player c
          then c' <- setIsReady true c ;; ret (Some c')
          else ret slot
      | None => ret slot
      end
  end.

Fixpoint run_handlers (hs : list Handler) (slot : Slot) : M Slot :=
  match hs with
  | [] => ret slot
  | h :: rest => slot' <- run_handler h slot ;; run_handlers rest slot'
  end.

Inductive Event : Type :=
| Mount (p : VideoPlayerProps)    (* the parent starts rendering the wrapper *)
| Unmount                         (* the parent stops rendering it *)
| Rerender (p : VideoPlayerProps) (* the parent renders it with other props *)
| Fire (t : Target).              (* the user clicks, or the widget emits *)

(** An event that cannot occur in the current state -- mounting what is
    mounted, unmounting or rendering what is not -- changes nothing. *)
Definition step (e : Event) (slot : Slot) : M Slot :=
  match e, slot with
  | Mount p, None => c <- mount p ;; ret (Some c)
  | Mount _, Some _ => ret slot
  | Unmount, Some c => unmount c ;; ret None
  | Unmount, None => ret slot
  | Rerender p, Some c => c' <- rerender p c ;; ret (Some c')
  | Rerender _, None => ret slot
  | Fire t, _ => hs <- take t ;; run_handlers hs slot
  end.

Fixpoint run (events : list Event) (slot : Slot) : M Slot :=
  match events with
  | [] => ret slot
  | e :: rest => slot' <- step e slot ;; run rest slot'
  end.

(** Nothing exists yet; [lv] is the widget's answer about quality levels. *)
Definition boot (lv : option nat) : Store := mkStore 0 lv [].

(** ** Reading a list of calls *)

(** Strict alternation of construction and disposal: [lifecycle live t] is
    [Some live'] when, starting with the live player [live], the calls of [t]
    never construct while a player is live and dispose only the live one;
    [live'] is the player live at the end. *)
Fixpoint lifecycle (live : option Id) (t : list Call) : option (option Id) :=
  match t with
  | [] => Some live
  | videojs _ _ p :: rest =>
      match live with
      | None => lifecycle (Some p) rest
      | Some _ => None
      end
  | dispose p :: rest =>
      match live with
      | Some q => if Nat.eqb p q then lifecycle None rest else None
      | None => None
      end
  | _ :: rest => lifecycle live rest
  end.

Definition is_videojs (c : Call) : bool :=
  match c with videojs _ _ _ => true | _ => false end.

Definition is_dispose (c : Call) : bool :=
  match c with dispose _ => true | _ => false end.

Definition is_src (c : Call) : bool :=
  match c with src _ _ => true | _ => false end.

Definition is_invoke (c : Call) : bool :=
  match c with invoke _ => true | _ => false end.

Definition count (f : Call -> bool) (t : list Call) : nat :=
  List.length (filter f t).

Definition demo_props : VideoPlayerProps :=
  mkProps "https://host/playlist.m3u8" None.

(** ** The modal host: Home in app/page.tsx *)

(** page.tsx:8 *)
Definition VIDEO_URL : string :=
  "https://vz-7335a46e-2e0.b-cdn.net/594c2931-3911-4bc3-a7ee-a085f5050931/playlist.m3u8".

(** page.tsx:67-70, the props Home passes to the player it renders. *)
Definition home_props : VideoPlayerProps := mkProps VIDEO_URL (Some home_close).

(** Modelled from the spec: components/EnhancedVideoPlayer.tsx, the wrapper
    that Home renders, is not among the sources; only its caller (page.tsx),
    its props (the same as VideoPlayer's) and its [resolutions] table (quoted
    in the project notes) are. Two things follow the specification: the
    selected quality label (section 4.1, SetQualityLabel: stored as
    UI-selection state only, no call into the widget) and the close action
    (section 4.1, NotifyClose: calls the externally supplied callback; the
    wrapper does not close the modal itself). The life cycle does not: the
    [wrapper] field is a stand-in, an instance of VideoPlayer.tsx, a
    component that Home does not render and that has no close action of its
    own. What the stand-in brings along beyond section 4.1 -- in particular
    the order in which React removes the container and runs the effect
    cleanup, where Teardown of section 4.1 has the disposal first -- is a fact
    about VideoPlayer.tsx only: the traces of Home evaluated below show the
    order of the stand-in, and no property of Home is stated about it or
    depends on it. *)
Record EnhancedVideoPlayer : Type := mkEnhanced {
  wrapper : VideoPlayer;
  selectedQuality : string
}.

(** Modelled from the spec: the quality labels of section 4.1; the project
    notes quote the same values from the [resolutions] table of the missing
    file. *)
Definition resolutions : list string := [ "auto"; "1080"; "720"; "480"; "360" ].

(** Modelled from the spec: SetQualityLabel of section 4.1, of the missing
    EnhancedVideoPlayer.tsx; the label is stored as UI-selection state only. *)
Definition SetQualityLabel (label : string) (e : EnhancedVideoPlayer)
  : M EnhancedVideoPlayer :=
  ret (mkEnhanced (wrapper e) label).

(** Modelled from the spec: NotifyClose of section 4.1, of the missing
    EnhancedVideoPlayer.tsx; it calls the externally supplied callback, when
    there is one ([onClose] is optional), and does nothing else. *)
Definition NotifyClose (e : EnhancedVideoPlayer) : M (option Callback) :=
  match onClose (props (wrapper e)) with
  | Some cb => call (invoke cb) ;; ret (Some cb)
  | None => ret None
  end.

(** page.tsx:11 and what is mounted below the Dialog. *)
Record Home : Type := mkHome {
  isOpen : bool;
  content : option EnhancedVideoPlayer
}.

Definition slot_of (h : Home) : Slot := option_map wrapper (content h).

(** Modelled from the spec: components/ui/dialog.tsx is not among the
    sources. Following section 4.2 of the specification the modal host mounts
    the player wrapper only while open: [Dialog] with [open] true renders its
    content, mounting it when it was not there, and with [open] false renders
    nothing, unmounting what was there. *)
Definition Dialog (open : bool) (current : option EnhancedVideoPlayer)
  : M (option EnhancedVideoPlayer) :=
  match open, current with
  | true, None => c <- mount home_props ;; ret (Some (mkEnhanced c "auto"))
  | true, Some e => ret (Some e)
  | false, Some e => unmount (wrapper e) ;; ret None
  | false, None => ret None
  end.

(** [setIsOpen(b)], followed by the render of page.tsx:60-73. *)
Definition setIsOpen (b : bool) (h : Home) : M Home :=
  if Bool.eqb (isOpen h) b then ret h
  else current <- Dialog b (content h) ;; ret (mkHome b current).

Definition run_callback (cb : option Callback) (h : Home) : M Home :=
  match cb with
  | Some home_close => setIsOpen false h      (* page.tsx:69 *)
  | _ => ret h
  end.

Definition with_wrapper (slot : Slot) (current : option EnhancedVideoPlayer)
  : option EnhancedVideoPlayer :=
  match slot, current with
  | Some c, Some e => Some (mkEnhanced c (selectedQuality e))
  | _, _ => None
  end.

Inductive HomeEvent : Type :=
| ClickStart                    (* page.tsx:49, the Start Playing Video button *)
| OpenChange (b : bool)         (* page.tsx:60, Dialog's onOpenChange *)
| ClickClose                    (* the close action of the modelled player *)
| SelectQuality (label : string) (* a quality label picked in the modelled player *)
| Widget (t : Target).          (* clicks on the wrapper's controls, widget events *)

Definition home_step (e : HomeEvent) (h : Home) : M Home :=
  match e with
  | ClickStart => setIsOpen true h
  | OpenChange b => setIsOpen b h
  | ClickClose =>
      match content h with
      | Some pl => cb <- NotifyClose pl ;; run_callback cb h
      | None => ret h
      end
  | SelectQuality label =>
      match content h with
      | Some pl => pl' <- SetQualityLabel label pl ;;
                   ret (mkHome (isOpen h) (Some pl'))
      | None => ret h
      end
  | Widget t =>
      slot <- step (Fire t) (slot_of h) ;;
      ret (mkHome (isOpen h) (with_wrapper slot (content h)))
  end.

Fixpoint home_run (events : list HomeEvent) (h : Home) : M Home :=
  match events with
  | [] => ret h
  | e :: rest => h' <- home_step e h ;; home_run rest h'
  end.

(** page.tsx:11, [useState(false)]: the page starts with the modal closed. *)
Definition home_init : Home := mkHome false None.

(** * Vocabulary of the properties *)

(** ** The calls and subscriptions of a mount, written out *)

Definition rate_subs (player item : Id) : list (Target * Handler) :=
  [ (on_click item, rate_click player (1 # 2));
    (on_click (1 + item), rate_click player (1 # 1));
    (on_click (2 + item), rate_click player (3 # 2));
    (on_click (3 + item), rate_click player (2 # 1)) ].

Definition rate_calls (player item : Id) : list Call :=
  [ createEl player "li" (1 # 2) item; addEventListener item "click";
    createEl player "li" (1 # 1) (1 + item); addEventListener (1 + item) "click";
    createEl player "li" (3 # 2) (2 + item); addEventListener (2 + item) "click";
    createEl player "li" (2 # 1) (3 + item); addEventListener (3 + item) "click" ].

Definition quality_calls (lv : option nat) (player button : Id) : list Call :=
  match lv with
  | None => []
  | Some 0 => [ qualityLevels player ]
  | Some (S _) =>
      [ qualityLevels player;
        addChild player "button" (JObj [("text", JStr "Quality")]) button;
        addClass button "vjs-quality-button" ]
  end.

Definition quality_ids (lv : option nat) : nat :=
  match lv with
  | Some (S _) => 1
  | _ => 0
  end.

Definition mount_calls (lv : option nat) (n : nat) : list Call :=
  [ videojs n playerOptions (1 + n);
    addChild (1 + n) "button" (JObj [("text", JStr "1x")]) (2 + n);
    addClass (2 + n) "vjs-playback-rate-button" ]
  ++ rate_calls (1 + n) (3 + n)
  ++ quality_calls lv (1 + n) (7 + n)
  ++ [ ready (1 + n) ].

(** ** The invariant of the wrapper's runs *)

Definition target_id (t : Target) : Id :=
  match t with
  | on_click x => x
  | on_ready x => x
  | on_event x _ => x
  end.

Definition well_kinded (t : Target) (h : Handler) : Prop :=
  match t, h with
  | on_click _, rate_click _ _ => True
  | on_ready p, set_ready q => p = q
  | _, _ => False
  end.

Definition live_player (slot : Slot) : option Id :=
  match slot with
  | Some c => playerRef c
  | None => None
  end.

(** Every [playbackRate] call comes after the construction of its player. *)
Definition ordered (t : list Call) : Prop :=
  forall pre p r post,
    t = pre ++ playbackRate p r :: post ->
    exists el o, In (videojs el o p) pre.

Record Inv (s : Store) (slot : Slot) (t : list Call) : Prop := mkInv {
  inv_refs : forall c, slot = Some c ->
    exists el p, videoRef c = Some el /\ playerRef c = Some p /\
                 cleanup c = Some dispose_player;
  inv_life : lifecycle None t = Some (live_player slot);
  inv_fresh : forall tg h, In (tg, h) (subs s) -> target_id tg < next_id s;
  inv_kind : forall tg h, In (tg, h) (subs s) -> well_kinded tg h;
  inv_items : forall p tag r item, In (createEl p tag r item) t ->
    handlers (on_click item) (subs s) = [ rate_click p r ];
  inv_built : forall tg p r, In (tg, rate_click p r) (subs s) ->
    exists el o, In (videojs el o p) t;
  inv_order : ordered t;
  inv_rates : forall c p, slot = Some c -> playerRef c = Some p ->
    forall r, In r playbackRates -> exists item, In (createEl p "li" r item) t;
  inv_pending : forall c p, slot = Some c -> playerRef c = Some p ->
    isReady c = false -> handlers (on_ready p) (subs s) = [ set_ready p ];
  inv_children : forall p name o b, In (addChild p name o b) t ->
    b < next_id s /\ handlers (on_click b) (subs s) = []
}.

Definition same_refs (slot slot' : Slot) : Prop :=
  match slot, slot' with
  | None, None => True
  | Some c, Some c' =>
      videoRef c' = videoRef c /\ playerRef c' = playerRef c /\
      cleanup c' = cleanup c
  | _, _ => False
  end.

(** Calls that neither construct, dispose nor create controls. *)
Definition harmless (t : list Call) (x : Call) : Prop :=
  is_src x = true \/ is_invoke x = true \/
  exists p r, x = playbackRate p r /\ exists el o, In (videojs el o p) t.

(** The calls the wrapper itself makes outside mount and unmount. *)
Definition quiet (t : list Call) (x : Call) : Prop :=
  is_src x = true \/
  exists p r, x = playbackRate p r /\ exists el o, In (videojs el o p) t.

(** ** The effect of firing a target, written out *)

Definition handler_calls (h : Handler) : list Call :=
  match h with
  | rate_click p r => [ playbackRate p r ]
  | set_ready _ => []
  end.

Definition readied (c : VideoPlayer) : VideoPlayer :=
  mkPlayer (props c) (videoRef c) (playerRef c) true (cleanup c).

Definition taken (t : Target) (s : Store) : Store :=
  mkStore (next_id s) (levels s)
          (filter (fun e => negb (target_eqb t (fst e))) (subs s)).

(** ** The invariant of the modal host's runs *)

Record HInv (h : Home) (s : Store) (t : list Call) : Prop := mkHInv {
  hinv_wrapper : Inv s (slot_of h) t;
  hinv_open : isOpen h = match content h with Some _ => true | None => false end;
  hinv_props : forall e, content h = Some e -> props (wrapper e) = home_props
}.

(** ** Sessions and the order of calls *)

(** The players that are constructed and not yet disposed. *)
Fixpoint sessions_from (live : list Id) (t : list Call) : list Id :=
  match t with
  | [] => live
  | videojs _ _ p :: rest => sessions_from (live ++ [p]) rest
  | dispose p :: rest =>
      sessions_from (filter (fun q => negb (Nat.eqb p q)) live) rest
  | _ :: rest => sessions_from live rest
  end.

Definition sessions (t : list Call) : list Id := sessions_from [] t.

Definition option_list (o : option Id) : list Id :=
  match o with
  | Some p => [p]
  | None => []
  end.

(** ** Three claims in the words of the specification

    Each is refuted below, and the statement that holds in its place is
    proved next to the refutation. *)

(** C4 as written: some construction call of [t] is given both [url] and
    [mime]. *)
Definition constructed_with (url mime : string) (t : list Call) : bool :=
  existsb (fun c => match c with
                    | videojs _ o _ => mentions url o && mentions mime o
                    | _ => false
                    end) t.

(** C7 as written rests on the rate controls existing only once the ready
    flag is set. *)
Definition rate_controls_wait_for_ready : Prop :=
  forall (lv : option nat) (events : list Event) (item : Id)
         (slot : Slot) (s : Store) (t : list Call) (p : Id) (r : Q),
    run events None (boot lv) = (slot, s, t) ->
    In (playbackRate p r) (snd (step (Fire (on_click item)) slot s)) ->
    exists c, slot = Some c /\ isReady c = true.

(** C9 as written makes logging the behaviour on a widget error. *)
Definition error_is_logged : Prop :=
  forall (lv : option nat) (events : list Event)
         (slot : Slot) (s : Store) (t : list Call) (p : Id),
    run events None (boot lv) = (slot, s, t) ->
    live_player slot = Some p ->
    exists message,
      In (console_error message) (snd (step (Fire (on_event p "error")) slot s)).

(** ** Vocabulary of the further properties *)

Definition is_qualityLevels (c : Call) : bool :=
  match c with qualityLevels _ => true | _ => false end.

(** An [addChild] whose options carry the text Quality (:71-73). *)
Definition is_quality_button (c : Call) : bool :=
  match c with
  | addChild _ _ o _ =>
      match field "text" o with
      | Some (JStr x) => String.eqb x "Quality"
      | _ => false
      end
  | _ => false
  end.


(** The URLs the parent hands over in the course of [events]. *)
Definition urls (events : list Event) : list string :=
  flat_map (fun e => match e with
                     | Mount p => [ videoUrl p ]
                     | Rerender p => [ videoUrl p ]
                     | _ => []
                     end) events.

(** The player a call is made on; a construction is made on none. *)
Definition on_player (c : Call) : option Id :=
  match c with
  | addChild p _ _ _ => Some p
  | createEl p _ _ _ => Some p
  | qualityLevels p => Some p
  | ready p => Some p
  | playbackRate p _ => Some p
  | src p _ => Some p
  | dispose p => Some p
  | _ => None
  end.

(** 1 while a mounted instance still waits for its widget to report ready. *)
Definition awaiting_ready (slot : Slot) : nat :=
  match slot with
  | Some c => if isReady c then 0 else 1
  | None => 0
  end.

(** Every [src] call is made on the player that is live at that moment. *)
Definition src_live (t : list Call) : Prop :=
  forall pre p o post,
    t = pre ++ src p o :: post -> lifecycle None pre = Some (Some p).

(** * Runs of the model on concrete sessions *)

(** One mount, without the quality-levels plugin. *)
Example mount_demo :
  run [Mount demo_props] None (boot None) =
  (Some (mkPlayer demo_props (Some 0) (Some 1) false (Some dispose_player)),
   mkStore 7 None
     [ (on_click 3, rate_click 1 (1 # 2)); (on_click 4, rate_click 1 (1 # 1));
       (on_click 5, rate_click 1 (3 # 2)); (on_click 6, rate_click 1 (2 # 1));
       (on_ready 1, set_ready 1) ],
   [ videojs 0 playerOptions 1;
     addChild 1 "button" (JObj [("text", JStr "1x")]) 2;
     addClass 2 "vjs-playback-rate-button";
     createEl 1 "li" (1 # 2) 3; addEventListener 3 "click";
     createEl 1 "li" (1 # 1) 4; addEventListener 4 "click";
     createEl 1 "li" (3 # 2) 5; addEventListener 5 "click";
     createEl 1 "li" (2 # 1) 6; addEventListener 6 "click";
     ready 1 ]).
Proof. reflexivity. Qed.

(** A whole session, with three quality levels reported by the widget. *)
Example session_demo :
  snd (run [Mount demo_props; Fire (on_ready 1); Fire (on_click 6); Unmount]
           None (boot (Some 3))) =
  [ videojs 0 playerOptions 1;
    addChild 1 "button" (JObj [("text", JStr "1x")]) 2;
    addClass 2 "vjs-playback-rate-button";
    createEl 1 "li" (1 # 2) 3; addEventListener 3 "click";
    createEl 1 "li" (1 # 1) 4; addEventListener 4 "click";
    createEl 1 "li" (3 # 2) 5; addEventListener 5 "click";
    createEl 1 "li" (2 # 1) 6; addEventListener 6 "click";
    qualityLevels 1;
    addChild 1 "button" (JObj [("text", JStr "Quality")]) 7;
    addClass 7 "vjs-quality-button";
    ready 1;
    src 1 (hlsSource "https://host/playlist.m3u8");
    playbackRate 1 (2 # 1);
    removeChild 0;
    dispose 1 ].
Proof. reflexivity. Qed.

(** A URL that arrives before the widget is ready is not lost: the effect
    runs again when [isReady] turns true and then reads the current prop. *)
Example early_url_demo :
  snd (run [Mount demo_props; Rerender (mkProps "next.m3u8" None);
            Fire (on_ready 1); Rerender (mkProps "last.m3u8" None)]
           None (boot None)) =
  mount_calls None 0 ++
  [ src 1 (hlsSource "next.m3u8"); src 1 (hlsSource "last.m3u8") ].
Proof. reflexivity. Qed.

(** Open, play at 2x, pick a label, close from the player, open again. *)
Example home_demo :
  snd (home_run [ClickStart; Widget (on_ready 1); Widget (on_click 6);
                 SelectQuality "720"; ClickClose; ClickStart]
                home_init (boot None)) =
  [ videojs 0 playerOptions 1;
    addChild 1 "button" (JObj [("text", JStr "1x")]) 2;
    addClass 2 "vjs-playback-rate-button";
    createEl 1 "li" (1 # 2) 3; addEventListener 3 "click";
    createEl 1 "li" (1 # 1) 4; addEventListener 4 "click";
    createEl 1 "li" (3 # 2) 5; addEventListener 5 "click";
    createEl 1 "li" (2 # 1) 6; addEventListener 6 "click";
    ready 1;
    src 1 (hlsSource VIDEO_URL);
    playbackRate 1 (2 # 1);
    invoke home_close;
    removeChild 0;
    dispose 1;
    videojs 7 playerOptions 8;
    addChild 8 "button" (JObj [("text", JStr "1x")]) 9;
    addClass 9 "vjs-playback-rate-button";
    createEl 8 "li" (1 # 2) 10; addEventListener 10 "click";
    createEl 8 "li" (1 # 1) 11; addEventListener 11 "click";
    createEl 8 "li" (3 # 2) 12; addEventListener 12 "click";
    createEl 8 "li" (2 # 1) 13; addEventListener 13 "click";
    ready 8 ].
Proof. reflexivity. Qed.

(** * Lemmas *)

(** ** Subscriptions and call lists *)

Lemma target_eqb_spec (a b : Target) : reflect (a = b) (target_eqb a b).
Proof.
  destruct a as [x|x|x n], b as [y|y|y m]; simpl; try (constructor; discriminate).
  - destruct (Nat.eqb_spec x y); constructor; congruence.
  - destruct (Nat.eqb_spec x y); constructor; congruence.
  - destruct (Nat.eqb_spec x y); simpl.
    + destruct (String.eqb_spec n m); constructor; congruence.
    + constructor; congruence.
Qed.

Lemma handlers_app t l l' : handlers t (l ++ l') = handlers t l ++ handlers t l'.
Proof. unfold handlers. now rewrite filter_app, map_app. Qed.

Lemma handlers_hit t h l : handlers t ((t, h) :: l) = h :: handlers t l.
Proof.
  unfold handlers; simpl. now destruct (target_eqb_spec t t).
Qed.

Lemma handlers_miss t t' h l : t <> t' -> handlers t ((t', h) :: l) = handlers t l.
Proof.
  intros N. unfold handlers; simpl. now destruct (target_eqb_spec t t').
Qed.

Lemma handlers_In t h l : In h (handlers t l) <-> In (t, h) l.
Proof.
  unfold handlers. rewrite in_map_iff. split.
  - intros [[t' h'] [E I]]. simpl in E; subst h'.
    apply filter_In in I as [I T]. simpl in T.
    destruct (target_eqb_spec t t'); [now subst | discriminate].
  - intros I. exists (t, h). split; [reflexivity|].
    apply filter_In. split; [assumption|]. simpl.
    now destruct (target_eqb_spec t t).
Qed.

Lemma handlers_none t l : (forall h, ~ In (t, h) l) -> handlers t l = [].
Proof.
  intros N. destruct (handlers t l) as [|h hs] eqn:E; [reflexivity|].
  exfalso. apply (N h). apply handlers_In. rewrite E. now left.
Qed.

Lemma handlers_taken t0 t l :
  handlers t (filter (fun e => negb (target_eqb t0 (fst e))) l) =
  if target_eqb t0 t then [] else handlers t l.
Proof.
  induction l as [|[t' h] l IH]; simpl.
  - now destruct (target_eqb t0 t).
  - destruct (target_eqb_spec t0 t') as [E0|N0]; simpl.
    + rewrite IH. destruct (target_eqb_spec t0 t) as [E|N]; [reflexivity|].
      rewrite handlers_miss; [reflexivity | congruence].
    + destruct (target_eqb_spec t t') as [E|N].
      * subst t'. rewrite !handlers_hit, IH.
        destruct (target_eqb_spec t0 t); [contradiction | reflexivity].
      * rewrite !handlers_miss by assumption. exact IH.
Qed.

Lemma lifecycle_app live t t' :
  lifecycle live (t ++ t') =
  match lifecycle live t with
  | Some live' => lifecycle live' t'
  | None => None
  end.
Proof.
  revert live. induction t as [|c t IH]; intros live; simpl; [reflexivity|].
  destruct c; simpl; try apply IH.
  - destruct live; [reflexivity | apply IH].
  - destruct live as [q|]; [|reflexivity].
    destruct (Nat.eqb player q); [apply IH | reflexivity].
Qed.

Lemma count_app f t t' : count f (t ++ t') = count f t + count f t'.
Proof. unfold count. now rewrite filter_app, length_app. Qed.

(** ** What each operation does, in closed form *)

Lemma mount_eq p n lv l :
  mount p (mkStore n lv l) =
  (mkPlayer p (Some n) (Some (1 + n)) false (Some dispose_player),
   mkStore (quality_ids lv + (7 + n)) lv
     (l ++ rate_subs (1 + n) (3 + n) ++ [ (on_ready (1 + n), set_ready (1 + n)) ]),
   mount_calls lv n).
Proof.
  destruct lv as [[|k]|]; unfold mount, mountEffect, bind; simpl;
    rewrite <- ?app_assoc; reflexivity.
Qed.

Lemma unmount_eq c element player s :
  videoRef c = Some element -> playerRef c = Some player ->
  cleanup c = Some dispose_player ->
  unmount c s = (tt, s, [ removeChild element; dispose player ]).
Proof.
  intros E P C. unfold unmount, runCleanup, bind, call, ret; simpl.
  now rewrite E, C, P.
Qed.

Lemma sourceEffect_eq c s :
  sourceEffect c s =
  (tt, s,
   match playerRef c with
   | Some player =>
       if isReady c then [ src player (hlsSource (videoUrl (props c))) ] else []
   | None => []
   end).
Proof.
  unfold sourceEffect. destruct (playerRef c); [destruct (isReady c)|]; reflexivity.
Qed.

(** ** The invariant holds along every run of the wrapper *)

Lemma ordered_app t new :
  ordered t ->
  (forall p r, In (playbackRate p r) new -> exists el o, In (videojs el o p) t) ->
  ordered (t ++ new).
Proof.
  intros O N pre p r post E.
  apply app_eq_app in E as [l [[E1 E2]|[E1 E2]]].
  - destruct l as [|x l].
    + simpl in E2. rewrite app_nil_r in E1. subst pre.
      apply (N p r). rewrite <- E2. now left.
    + simpl in E2. injection E2 as E3 E4. subst x. apply (O pre p r l E1).
  - subst pre. destruct (N p r) as [el [o I]].
    + rewrite E2. apply in_or_app. right. now left.
    + exists el, o. apply in_or_app. now left.
Qed.

Lemma lifecycle_mount_calls lv n :
  lifecycle None (mount_calls lv n) = Some (Some (1 + n)).
Proof. destruct lv as [[|k]|]; reflexivity. Qed.

Lemma createEl_mount_calls lv n p tag r item :
  In (createEl p tag r item) (mount_calls lv n) ->
  p = 1 + n /\ tag = "li" /\
  In (on_click item, rate_click p r) (rate_subs (1 + n) (3 + n)).
Proof.
  intros I. unfold mount_calls, rate_calls, rate_subs in *.
  destruct lv as [[|k]|]; simpl in I;
    repeat (destruct I as [I|I]; [try discriminate I; injection I as <- <- <- <- |]);
    try contradiction; simpl; auto 10.
Qed.

Lemma addChild_mount_calls lv n p name o b :
  In (addChild p name o b) (mount_calls lv n) ->
  b = 2 + n \/ (b = 7 + n /\ quality_ids lv = 1).
Proof.
  intros I. unfold mount_calls, rate_calls in I.
  destruct lv as [[|k]|]; simpl in I;
    repeat (destruct I as [I|I]; [try discriminate I; injection I as <- <- <- <- |]);
    try contradiction; auto.
Qed.

Lemma playbackRate_mount_calls lv n p r :
  ~ In (playbackRate p r) (mount_calls lv n).
Proof.
  intros I. unfold mount_calls, rate_calls in I.
  destruct lv as [[|k]|]; simpl in I;
    repeat (destruct I as [I|I]; [discriminate I|]); contradiction.
Qed.

Lemma rate_subs_In tg h player item :
  In (tg, h) (rate_subs player item) ->
  exists k r, k < 4 /\ tg = on_click (k + item) /\ h = rate_click player r.
Proof.
  unfold rate_subs. simpl. intros I.
  repeat (destruct I as [I|I]; [injection I as <- <- |]); try contradiction.
  - exists 0, (1 # 2)%Q. repeat split; lia.
  - exists 1, (1 # 1)%Q. repeat split; lia.
  - exists 2, (3 # 2)%Q. repeat split; lia.
  - exists 3, (2 # 1)%Q. repeat split; lia.
Qed.

Lemma rate_subs_handlers player item k r :
  In (on_click k, rate_click player r) (rate_subs player item) ->
  handlers (on_click k) (rate_subs player item) = [ rate_click player r ].
Proof.
  unfold rate_subs. simpl. intros I.
  repeat (destruct I as [I|I]; [injection I as <- <- |]); try contradiction;
    repeat first [ rewrite handlers_hit
                 | rewrite handlers_miss by (intro E; injection E; lia) ];
    reflexivity.
Qed.

Lemma Inv_boot lv : Inv (boot lv) None [].
Proof.
  split; simpl; try discriminate; try contradiction; try reflexivity.
  intros pre p r post E. now destruct pre.
Qed.

Lemma Inv_mount p s t c s' new :
  Inv s None t -> mount p s = (c, s', new) -> Inv s' (Some c) (t ++ new).
Proof.
  intros I E. destruct s as [n lv l]. rewrite mount_eq in E.
  remember (rate_subs (1 + n) (3 + n)) as items eqn:EI in E.
  injection E as <- <- <-.
  assert (F : forall tg h,
             In (tg, h) (items ++ [ (on_ready (1 + n), set_ready (1 + n)) ]) ->
             n < target_id tg < 7 + n /\ well_kinded tg h /\
             (forall q r, h = rate_click q r -> q = 1 + n)).
  { intros tg h H. apply in_app_or in H as [H|H].
    - subst items. apply rate_subs_In in H as [k [r [K [-> ->]]]]. simpl.
      repeat split; try lia. intros q r' Q. now injection Q.
    - destruct H as [H|[]]. injection H as <- <-. simpl.
      repeat split; try lia. discriminate. }
  assert (O : forall tg h, In (tg, h) l -> target_id tg < n)
    by (intros tg h H; exact (inv_fresh _ _ _ I tg h H)).
  split; cbn [subs next_id levels].
  - intros c [= <-]. simpl. eauto.
  - rewrite lifecycle_app, (inv_life _ _ _ I). simpl live_player.
    apply lifecycle_mount_calls.
  - intros tg h H. apply in_app_or in H as [H|H].
    + apply O in H. lia.
    + apply F in H. lia.
  - intros tg h H. apply in_app_or in H as [H|H].
    + exact (inv_kind _ _ _ I tg h H).
    + now apply F in H.
  - intros q tag r item H. rewrite !handlers_app. apply in_app_or in H as [H|H].
    + pose proof (inv_items _ _ _ I _ _ _ _ H) as Hh. simpl in Hh. rewrite Hh.
      assert (item < n).
      { apply (O (on_click item) (rate_click q r)). apply handlers_In.
        rewrite Hh. now left. }
      rewrite (handlers_none _ items), (handlers_none _ [_]); [reflexivity| |].
      * intros h [H'|[]]. discriminate H'.
      * intros h H'. subst items.
        apply rate_subs_In in H' as [k [r' [_ [H' _]]]].
        injection H'. lia.
    + apply createEl_mount_calls in H as [-> [_ H]]. subst items.
      rewrite (handlers_none _ l), (rate_subs_handlers _ _ _ _ H),
        (handlers_none _ [_]); [reflexivity | |].
      * intros h [H'|[]]. discriminate H'.
      * intros h H'. apply O in H'. simpl in H'.
        apply rate_subs_In in H as [k [r' [_ [H _]]]]. injection H. lia.
  - intros tg q r H. apply in_app_or in H as [H|H].
    + destruct (inv_built _ _ _ I tg q r H) as [el [o H']].
      exists el, o. apply in_or_app. now left.
    + apply F in H as [_ [_ H]]. rewrite (H q r eq_refl).
      exists n, playerOptions. apply in_or_app. right. now left.
  - apply ordered_app; [exact (inv_order _ _ _ I)|].
    intros q r H. now apply playbackRate_mount_calls in H.
  - intros c q [= <-] [= <-] r H. unfold playbackRates in H. simpl in H.
    unfold mount_calls, rate_calls.
    repeat (destruct H as [H|H]; [subst r|]); try contradiction;
      eexists; apply in_or_app; right; simpl; auto 12.
  - intros c q [= <-] [= <-] _. rewrite !handlers_app.
    rewrite (handlers_none _ l), (handlers_none _ items), handlers_hit;
      [reflexivity | |].
    + intros h H. subst items.
      apply rate_subs_In in H as [k [r' [_ [H _]]]]. discriminate H.
    + intros h H. apply O in H. simpl in H. lia.
  - intros q name o b H. rewrite !handlers_app. apply in_app_or in H as [H|H].
    + destruct (inv_children _ _ _ I _ _ _ _ H) as [B Hh]. simpl in B, Hh.
      split; [lia|]. rewrite Hh.
      rewrite (handlers_none _ items), (handlers_none _ [_]); [reflexivity| |].
      * intros h [H'|[]]. discriminate H'.
      * intros h H'. subst items.
        apply rate_subs_In in H' as [k [r' [_ [H' _]]]]. injection H'. lia.
    + apply addChild_mount_calls in H.
      split; [destruct H as [->|[-> Q]]; lia|].
      rewrite (handlers_none _ l), (handlers_none _ items), (handlers_none _ [_]);
        [reflexivity | | |].
      * intros h [H'|[]]. discriminate H'.
      * intros h H'. subst items.
        apply rate_subs_In in H' as [k [r' [K [H' _]]]]. injection H'.
        destruct H as [->|[-> _]]; lia.
      * intros h H'. apply O in H'. simpl in H'. destruct H as [->|[-> _]]; lia.
Qed.

Lemma Inv_unmount c s t u s' new :
  Inv s (Some c) t -> unmount c s = (u, s', new) -> Inv s' None (t ++ new).
Proof.
  intros I E.
  destruct (inv_refs _ _ _ I c eq_refl) as [el [p [R [P C]]]].
  rewrite (unmount_eq c el p s R P C) in E. injection E as _ <- <-.
  split; try discriminate.
  - rewrite lifecycle_app, (inv_life _ _ _ I). simpl. rewrite P. simpl.
    now rewrite Nat.eqb_refl.
  - exact (inv_fresh _ _ _ I).
  - exact (inv_kind _ _ _ I).
  - intros q tag r item H. apply in_app_or in H as [H|H].
    + exact (inv_items _ _ _ I _ _ _ _ H).
    + simpl in H. destruct H as [H|[H|[]]]; discriminate H.
  - intros tg q r H. destruct (inv_built _ _ _ I tg q r H) as [e [o H']].
    exists e, o. apply in_or_app. now left.
  - apply ordered_app; [exact (inv_order _ _ _ I)|].
    intros q r [H|[H|[]]]; discriminate H.
  - intros q name o b H. apply in_app_or in H as [H|H].
    + exact (inv_children _ _ _ I _ _ _ _ H).
    + simpl in H. destruct H as [H|[H|[]]]; discriminate H.
Qed.

Lemma quiet_harmless t x : quiet t x -> harmless t x.
Proof. intros [H|H]; [now left | now right; right]. Qed.

(** A step that keeps the refs, drops at most subscriptions that are not
    clicks, and emits only harmless calls. *)
Lemma Inv_frame s slot t s' slot' new :
  Inv s slot t ->
  same_refs slot slot' ->
  next_id s' = next_id s ->
  (forall tg h, In (tg, h) (subs s') -> In (tg, h) (subs s)) ->
  (forall item, handlers (on_click item) (subs s') =
                handlers (on_click item) (subs s)) ->
  (forall c' p, slot' = Some c' -> playerRef c' = Some p -> isReady c' = false ->
                handlers (on_ready p) (subs s') = [ set_ready p ]) ->
  (forall x, In x new -> harmless t x) ->
  Inv s' slot' (t ++ new).
Proof.
  intros I R Nx Sub Clk Pen N.
  assert (L : live_player slot' = live_player slot).
  { destruct slot as [c|], slot' as [c'|]; simpl in *; try tauto. }
  split.
  - intros c' ->. destruct slot as [c|]; [|contradiction].
    destruct R as [R [P C]]. rewrite R, P, C. exact (inv_refs _ _ _ I c eq_refl).
  - rewrite lifecycle_app, (inv_life _ _ _ I), L.
    clear -N. induction new as [|x new IH]; [reflexivity|].
    assert (lifecycle (live_player slot) (x :: new) =
            lifecycle (live_player slot) new) as ->.
    { destruct (N x (or_introl eq_refl)) as [X|[X|[p [r [-> _]]]]];
        [destruct x; try discriminate X; reflexivity ..| reflexivity]. }
    apply IH. intros y Y. apply N. now right.
  - intros tg h H. rewrite Nx. exact (inv_fresh _ _ _ I tg h (Sub _ _ H)).
  - intros tg h H. exact (inv_kind _ _ _ I tg h (Sub _ _ H)).
  - intros q tag r item H. rewrite Clk. apply in_app_or in H as [H|H].
    + exact (inv_items _ _ _ I _ _ _ _ H).
    + destruct (N _ H) as [X|[X|[p [r' [X _]]]]]; discriminate X.
  - intros tg q r H. destruct (inv_built _ _ _ I tg q r (Sub _ _ H)) as [e [o H']].
    exists e, o. apply in_or_app. now left.
  - apply ordered_app; [exact (inv_order _ _ _ I)|].
    intros q r H. destruct (N _ H) as [X|[X|[p [r' [X B]]]]];
      try discriminate X. now injection X as -> ->.
  - intros c' q -> Q r H. destruct slot as [c|]; [|contradiction].
    destruct R as [_ [P _]]. rewrite P in Q.
    destruct (inv_rates _ _ _ I c q eq_refl Q r H) as [item H'].
    exists item. apply in_or_app. now left.
  - exact Pen.
  - intros q name o b H. rewrite Nx, Clk. apply in_app_or in H as [H|H].
    + exact (inv_children _ _ _ I _ _ _ _ H).
    + destruct (N _ H) as [X|[X|[p [r' [X _]]]]]; discriminate X.
Qed.

Lemma Inv_rerender p c s t c' s' new :
  Inv s (Some c) t -> rerender p c s = (c', s', new) -> Inv s' (Some c') (t ++ new).
Proof.
  intros I E. unfold rerender in E. cbv zeta in E.
  assert (P : forall d q, Some (mkPlayer p (videoRef c) (playerRef c)
                                          (isReady c) (cleanup c)) = Some d ->
                          playerRef d = Some q -> isReady d = false ->
                          handlers (on_ready q) (subs s) = [ set_ready q ]).
  { intros d q [= <-] Q Rd. exact (inv_pending _ _ _ I c q eq_refl Q Rd). }
  destruct (String.eqb (videoUrl p) (videoUrl (props c))).
  - injection E as <- <- <-.
    apply (Inv_frame s (Some c)); simpl; auto. intros x [].
  - unfold bind in E. rewrite sourceEffect_eq in E. simpl in E.
    injection E as <- <- <-.
    apply (Inv_frame s (Some c)); simpl; auto.
    rewrite app_nil_r. intros x H. left.
    destruct (playerRef c); [destruct (isReady c)|]; simpl in H;
      try contradiction. destruct H as [<-|[]]. reflexivity.
Qed.

Lemma run_handlers_cons h hs slot s :
  run_handlers (h :: hs) slot s =
  let '(slot1, s1, t1) := run_handler h slot s in
  let '(slot2, s2, t2) := run_handlers hs slot1 s1 in
  (slot2, s2, t1 ++ t2).
Proof. reflexivity. Qed.

Lemma run_rate_clicks hs slot s :
  (forall h, In h hs -> exists p r, h = rate_click p r) ->
  run_handlers hs slot s = (slot, s, flat_map handler_calls hs).
Proof.
  induction hs as [|h hs IH]; intros A; [reflexivity|].
  destruct (A h (or_introl eq_refl)) as [p [r ->]].
  rewrite run_handlers_cons. simpl run_handler. unfold bind, call, ret.
  rewrite IH; [reflexivity|].
  intros h H. apply A. now right.
Qed.

Lemma run_set_ready_idle q hs slot s :
  (forall h, In h hs -> h = set_ready q) ->
  match slot with
  | Some c => owns q c = false \/ isReady c = true
  | None => True
  end ->
  run_handlers hs slot s = (slot, s, []).
Proof.
  induction hs as [|h hs IH]; intros A B; [reflexivity|].
  rewrite (A h (or_introl eq_refl)).
  assert (E : run_handler (set_ready q) slot s = (slot, s, [])).
  { destruct slot as [c|]; [|reflexivity]. simpl.
    destruct (owns q c) eqn:O; [|reflexivity].
    destruct B as [B|B]; [discriminate B|].
    unfold bind, setIsReady. now rewrite B. }
  rewrite run_handlers_cons, E, IH; auto.
  intros h' H. apply A. now right.
Qed.

Lemma owns_true q c : owns q c = true <-> playerRef c = Some q.
Proof.
  unfold owns. destruct (playerRef c) as [p|]; [|split; discriminate].
  destruct (Nat.eqb_spec q p); split; congruence.
Qed.

Lemma run_set_ready_first q c s :
  playerRef c = Some q -> isReady c = false ->
  run_handlers [ set_ready q ] (Some c) s =
  (Some (readied c), s, [ src q (hlsSource (videoUrl (props c))) ]).
Proof.
  intros P R. destruct c as [p v pr rd cl]. simpl in P, R. subst pr rd.
  unfold readied, run_handlers, run_handler, setIsReady, sourceEffect, owns, bind.
  simpl. now rewrite Nat.eqb_refl.
Qed.

Lemma fire_click_eq s slot t x :
  Inv s slot t ->
  step (Fire (on_click x)) slot s =
  (slot, s, flat_map handler_calls (handlers (on_click x) (subs s))).
Proof.
  intros I. destruct s as [n lv l]. unfold step, bind, take. simpl.
  rewrite run_rate_clicks; [reflexivity|].
  intros h H. apply handlers_In in H. apply (inv_kind _ _ _ I) in H.
  destruct h; simpl in H; [eauto | contradiction].
Qed.

Lemma fire_event_eq s slot t p name :
  Inv s slot t ->
  step (Fire (on_event p name)) slot s = (slot, s, []).
Proof.
  intros I. destruct s as [n lv l]. unfold step, bind, take. simpl.
  rewrite handlers_none; [reflexivity|].
  intros h H. apply (inv_kind _ _ _ I) in H. exact H.
Qed.

Lemma fire_ready_eq s slot t q :
  Inv s slot t ->
  step (Fire (on_ready q)) slot s =
  match slot with
  | Some c =>
      if owns q c && negb (isReady c)
      then (Some (readied c), taken (on_ready q) s,
            [ src q (hlsSource (videoUrl (props c))) ])
      else (slot, taken (on_ready q) s, [])
  | None => (None, taken (on_ready q) s, [])
  end.
Proof.
  intros I. unfold step, bind, take. simpl one_shot. cbv iota.
  fold (taken (on_ready q) s).
  assert (A : forall h, In h (handlers (on_ready q) (subs s)) -> h = set_ready q).
  { intros h H. apply handlers_In in H. apply (inv_kind _ _ _ I) in H.
    destruct h; simpl in H; [contradiction | now subst]. }
  destruct slot as [c|].
  - destruct (owns q c) eqn:O; simpl.
    + destruct (isReady c) eqn:R; simpl.
      * rewrite (run_set_ready_idle q); auto.
      * apply owns_true in O.
        rewrite (inv_pending _ _ _ I c q eq_refl O R).
        now rewrite run_set_ready_first.
    + rewrite (run_set_ready_idle q); auto.
  - rewrite (run_set_ready_idle q); auto.
Qed.

Lemma Inv_fire tg s slot t slot' s' new :
  Inv s slot t -> step (Fire tg) slot s = (slot', s', new) ->
  Inv s' slot' (t ++ new).
Proof.
  intros I E.
  assert (R : same_refs slot slot)
    by (destruct slot; simpl; auto).
  destruct tg as [x|q|p name].
  - rewrite (fire_click_eq s slot t x I) in E. injection E as <- <- <-.
    apply (Inv_frame s slot); auto.
    + intros c' p ->. exact (inv_pending _ _ _ I c' p eq_refl).
    + intros x' H. apply in_flat_map in H as [h [H H']].
      apply handlers_In in H. right. right.
      destruct h as [p r|p]; simpl in H'; [|contradiction].
      destruct H' as [<-|[]]. exists p, r. split; [reflexivity|].
      exact (inv_built _ _ _ I _ p r H).
  - rewrite (fire_ready_eq s slot t q I) in E.
    assert (Sub : forall tg h, In (tg, h) (subs (taken (on_ready q) s)) ->
                               In (tg, h) (subs s))
      by (intros tg h H; simpl in H; now apply filter_In in H).
    assert (Clk : forall item,
               handlers (on_click item) (subs (taken (on_ready q) s)) =
               handlers (on_click item) (subs s))
      by (intros item; unfold taken; cbn [subs]; now rewrite handlers_taken).
    destruct slot as [c|].
    + destruct (owns q c && negb (isReady c)) eqn:B; injection E as <- <- <-.
      * apply (Inv_frame s (Some c) t _ _ _ I);
          [simpl; auto | reflexivity | exact Sub | exact Clk | | ].
        -- intros c' p [= <-] _ D. discriminate D.
        -- intros x [<-|[]]. now left.
      * apply (Inv_frame s (Some c) t _ _ _ I);
          [simpl; auto | reflexivity | exact Sub | exact Clk | | intros x []].
        intros c' p [= <-] P D. rewrite D, andb_true_r in B.
        unfold taken; cbn [subs]. rewrite handlers_taken. cbn [target_eqb].
        unfold owns in B. rewrite P in B. rewrite B.
        exact (inv_pending _ _ _ I c p eq_refl P D).
    + injection E as <- <- <-.
      apply (Inv_frame s None t _ _ _ I);
        [simpl; auto | reflexivity | exact Sub | exact Clk | discriminate
        | intros x []].
  - rewrite (fire_event_eq s slot t p name I) in E. injection E as <- <- <-.
    apply (Inv_frame s slot); auto; [| intros x []].
    intros c' q ->. exact (inv_pending _ _ _ I c' q eq_refl).
Qed.

Lemma Inv_step e s slot t slot' s' new :
  Inv s slot t -> step e slot s = (slot', s', new) -> Inv s' slot' (t ++ new).
Proof.
  intros I E. destruct e as [p| |p|tg].
  - destruct slot as [c|]; simpl in E.
    + injection E as <- <- <-. now rewrite app_nil_r.
    + unfold bind in E. destruct (mount p s) as [[c s1] t1] eqn:M.
      simpl in E. injection E as <- <- <-. rewrite app_nil_r.
      exact (Inv_mount p s t c s1 t1 I M).
  - destruct slot as [c|]; simpl in E.
    + unfold bind in E. destruct (unmount c s) as [[u s1] t1] eqn:U.
      simpl in E. injection E as <- <- <-. rewrite app_nil_r.
      exact (Inv_unmount c s t u s1 t1 I U).
    + injection E as <- <- <-. now rewrite app_nil_r.
  - destruct slot as [c|]; simpl in E.
    + unfold bind in E. destruct (rerender p c s) as [[c' s1] t1] eqn:U.
      simpl in E. injection E as <- <- <-. rewrite app_nil_r.
      exact (Inv_rerender p c s t c' s1 t1 I U).
    + injection E as <- <- <-. now rewrite app_nil_r.
  - exact (Inv_fire tg s slot t slot' s' new I E).
Qed.

Lemma run_cons e rest slot s :
  run (e :: rest) slot s =
  let '(slot1, s1, t1) := step e slot s in
  let '(slot2, s2, t2) := run rest slot1 s1 in
  (slot2, s2, t1 ++ t2).
Proof. reflexivity. Qed.

Lemma Inv_run events s slot t slot' s' new :
  Inv s slot t -> run events slot s = (slot', s', new) -> Inv s' slot' (t ++ new).
Proof.
  revert s slot t new. induction events as [|e rest IH]; intros s slot t new I E.
  - injection E as <- <- <-. now rewrite app_nil_r.
  - rewrite run_cons in E.
    destruct (step e slot s) as [[slot1 s1] t1] eqn:S1.
    destruct (run rest slot1 s1) as [[slot2 s2] t2] eqn:S2.
    injection E as <- <- <-. rewrite app_assoc.
    apply (IH s1 slot1); [|exact S2].
    exact (Inv_step e s slot t slot1 s1 t1 I S1).
Qed.

(** Every run from the empty page satisfies the invariant. *)
Lemma Inv_reachable lv events slot s t :
  run events None (boot lv) = (slot, s, t) -> Inv s slot t.
Proof.
  intros E. exact (Inv_run events (boot lv) None [] slot s t (Inv_boot lv) E).
Qed.

(** What a firing does to the mounted instance and which calls it emits. *)
Lemma fire_effect tg s slot t slot' s' new :
  Inv s slot t -> step (Fire tg) slot s = (slot', s', new) ->
  (slot' = slot \/ exists c, slot = Some c /\ slot' = Some (readied c)) /\
  (forall x, In x new -> quiet t x).
Proof.
  intros I E. destruct tg as [x|q|p name].
  - rewrite (fire_click_eq s slot t x I) in E. injection E as <- <- <-.
    split; [now left|].
    intros x' H. apply in_flat_map in H as [h [H H']].
    apply handlers_In in H. right.
    destruct h as [p r|p]; simpl in H'; [|contradiction].
    destruct H' as [<-|[]]. exists p, r. split; [reflexivity|].
    exact (inv_built _ _ _ I _ p r H).
  - rewrite (fire_ready_eq s slot t q I) in E. destruct slot as [c|].
    + destruct (owns q c && negb (isReady c)); injection E as <- <- <-.
      * split; [right; eauto|]. intros x [<-|[]]. now left.
      * split; [now left | intros x []].
    + injection E as <- <- <-. split; [now left | intros x []].
  - rewrite (fire_event_eq s slot t p name I) in E. injection E as <- <- <-.
    split; [now left | intros x []].
Qed.

Lemma quiet_counts t new :
  (forall x, In x new -> quiet t x) ->
  count is_videojs new = 0 /\ count is_dispose new = 0 /\
  count is_invoke new = 0.
Proof.
  induction new as [|x new IH]; intros N; [repeat split; reflexivity|].
  destruct IH as [V [D K]]; [intros y Y; apply N; now right|].
  unfold count in *. simpl.
  destruct (N x (or_introl eq_refl)) as [X|[p [r [-> _]]]];
    [destruct x; try discriminate X; simpl; auto | simpl; auto].
Qed.

(** The calls of one step, by kind of step. *)
Lemma step_calls e s slot t slot' s' new :
  Inv s slot t -> step e slot s = (slot', s', new) ->
  match e, slot with
  | Mount _, None => new = mount_calls (levels s) (next_id s)
  | Unmount, Some c =>
      exists el p, videoRef c = Some el /\ playerRef c = Some p /\
                   new = [ removeChild el; dispose p ]
  | _, _ => forall x, In x new -> quiet t x
  end.
Proof.
  intros I E. destruct e as [p| |p|tg].
  - destruct slot as [c|]; simpl in E.
    + injection E as <- <- <-. intros x [].
    + destruct s as [n lv l]. unfold bind in E. rewrite mount_eq in E.
      injection E as <- <- <-. simpl. now rewrite app_nil_r.
  - destruct slot as [c|]; simpl in E.
    + destruct (inv_refs _ _ _ I c eq_refl) as [el [p [R [P C]]]].
      unfold bind in E. rewrite (unmount_eq c el p s R P C) in E.
      injection E as <- <- <-. exists el, p. auto.
    + injection E as <- <- <-. intros x [].
  - destruct slot as [c|]; simpl in E.
    + unfold bind, rerender in E. cbv zeta in E.
      destruct (String.eqb (videoUrl p) (videoUrl (props c))).
      * injection E as <- <- <-. intros x [].
      * unfold bind in E. rewrite sourceEffect_eq in E. simpl in E.
        injection E as <- <- <-. intros x H. left.
        destruct (playerRef c); [destruct (isReady c)|]; simpl in H;
          try contradiction. destruct H as [<-|[]]. reflexivity.
    + injection E as <- <- <-. intros x [].
  - destruct slot; exact (proj2 (fire_effect tg s _ t slot' s' new I E)).
Qed.

(** ** The invariant holds along every run of the modal host *)

Lemma HInv_boot lv : HInv home_init (boot lv) [].
Proof.
  split; simpl; [apply Inv_boot | reflexivity | discriminate].
Qed.

Lemma HInv_setIsOpen b h s t h' s' new :
  HInv h s t -> setIsOpen b h s = (h', s', new) -> HInv h' s' (t ++ new).
Proof.
  intros [I O P] E. unfold setIsOpen in E.
  destruct (Bool.eqb (isOpen h) b) eqn:B.
  - injection E as <- <- <-. rewrite app_nil_r. now split.
  - apply Bool.eqb_false_iff in B. unfold bind in E.
    destruct h as [o [e|]]; simpl in *; subst o; destruct b; try congruence.
    + destruct (unmount (wrapper e) s) as [[u s1] t1] eqn:U.
      unfold Dialog, bind in E. rewrite U in E.
      simpl in E. injection E as <- <- <-. rewrite !app_nil_r.
      split; simpl; [| reflexivity | discriminate].
      exact (Inv_unmount _ s t u s1 t1 I U).
    + destruct (mount home_props s) as [[c s1] t1] eqn:U.
      unfold Dialog, bind in E. rewrite U in E.
      simpl in E. injection E as <- <- <-. rewrite !app_nil_r.
      split; simpl; [| reflexivity |].
      * exact (Inv_mount _ s t c s1 t1 I U).
      * intros e [= <-]. simpl.
        destruct s as [n lv l]. rewrite mount_eq in U. now injection U as <- _ _.
Qed.

Lemma HInv_step e h s t h' s' new :
  HInv h s t -> home_step e h s = (h', s', new) -> HInv h' s' (t ++ new).
Proof.
  intros HI E. destruct e as [|b| |label|tg]; [simpl in E .. |].
  - exact (HInv_setIsOpen true h s t h' s' new HI E).
  - exact (HInv_setIsOpen b h s t h' s' new HI E).
  - destruct (content h) as [e|] eqn:C.
    + unfold bind, NotifyClose in E.
      rewrite (hinv_props _ _ _ HI e C) in E. simpl in E.
      destruct (setIsOpen false h s) as [[h1 s1] t1] eqn:U.
      injection E as <- <- <-.
      assert (HI1 : HInv h s (t ++ [ invoke home_close ])).
      { destruct HI as [I O P]. split; auto.
        apply (Inv_frame s (slot_of h) t s (slot_of h)); auto.
        - destruct (slot_of h); simpl; auto.
        - intros c' p Hc. exact (inv_pending _ _ _ I c' p Hc).
        - intros x [<-|[]]. right. now left. }
      replace (t ++ invoke home_close :: t1)
        with ((t ++ [ invoke home_close ]) ++ t1)
        by (rewrite <- app_assoc; reflexivity).
      exact (HInv_setIsOpen false h s _ h1 s1 t1 HI1 U).
    + injection E as <- <- <-. now rewrite app_nil_r.
  - destruct (content h) as [e|] eqn:C.
    + injection E as <- <- <-. rewrite app_nil_r.
      destruct HI as [I O P]. unfold slot_of in I. rewrite C in *.
      split; simpl; auto.
      intros e' [= <-]. simpl. now apply P.
    + injection E as <- <- <-. now rewrite app_nil_r.
  - unfold home_step, bind in E.
    destruct (step (Fire tg) (slot_of h) s) as [[slot1 s1] t1] eqn:U.
    simpl in E. injection E as <- <- <-. rewrite app_nil_r.
    destruct HI as [I O P].
    pose proof (Inv_fire tg s _ t slot1 s1 t1 I U) as I1.
    destruct (fire_effect tg s _ t slot1 s1 t1 I U) as [Sh _].
    unfold slot_of in *. destruct (content h) as [e|]; simpl in *.
    + assert (exists c, slot1 = Some c /\ props c = props (wrapper e))
        as [c [-> Pc]].
      { destruct Sh as [->|[c [[= <-] ->]]]; eauto. }
      split; simpl; auto.
      intros e' [= <-]. simpl. rewrite Pc. now apply P.
    + assert (slot1 = None) as ->
        by (destruct Sh as [->|[c [Sh _]]]; [reflexivity | discriminate Sh]).
      split; simpl; auto.
Qed.

Lemma home_run_cons e rest h s :
  home_run (e :: rest) h s =
  let '(h1, s1, t1) := home_step e h s in
  let '(h2, s2, t2) := home_run rest h1 s1 in
  (h2, s2, t1 ++ t2).
Proof. reflexivity. Qed.

Lemma HInv_run events h s t h' s' new :
  HInv h s t -> home_run events h s = (h', s', new) -> HInv h' s' (t ++ new).
Proof.
  revert h s t new. induction events as [|e rest IH]; intros h s t new I E.
  - injection E as <- <- <-. now rewrite app_nil_r.
  - rewrite home_run_cons in E.
    destruct (home_step e h s) as [[h1 s1] t1] eqn:S1.
    destruct (home_run rest h1 s1) as [[h2 s2] t2] eqn:S2.
    injection E as <- <- <-. rewrite app_assoc.
    apply (IH h1 s1); [|exact S2].
    exact (HInv_step e h s t h1 s1 t1 I S1).
Qed.

Lemma HInv_reachable lv events h s t :
  home_run events home_init (boot lv) = (h, s, t) -> HInv h s t.
Proof.
  intros E. exact (HInv_run events home_init (boot lv) [] h s t (HInv_boot lv) E).
Qed.

(** ** Counting and sessions *)

Lemma count_mount_calls lv n :
  count is_videojs (mount_calls lv n) = 1 /\
  count is_dispose (mount_calls lv n) = 0 /\
  count is_src (mount_calls lv n) = 0 /\
  count is_invoke (mount_calls lv n) = 0.
Proof. destruct lv as [[|k]|]; repeat split; reflexivity. Qed.

Lemma with_wrapper_same h : with_wrapper (slot_of h) (content h) = content h.
Proof. destruct h as [o [[w q]|]]; reflexivity. Qed.

Lemma sessions_lifecycle t live live' :
  lifecycle live t = Some live' ->
  sessions_from (option_list live) t = option_list live'.
Proof.
  revert live. induction t as [|c t IH]; intros live E; simpl in *.
  - now injection E as <-.
  - destruct c; try (now apply IH).
    + destruct live as [q|]; [discriminate E|]. exact (IH _ E).
    + destruct live as [q|]; [|discriminate E].
      destruct (Nat.eqb_spec player q) as [->|N]; [|discriminate E].
      simpl. rewrite Nat.eqb_refl. simpl. exact (IH _ E).
Qed.



(** The Quality button that the mount effect adds to the control bar (:71)
    carries no listener: a click on it makes no call and changes nothing. *)
Lemma quality_button_idle lv events slot s t player button :
  run events None (boot lv) = (slot, s, t) ->
  In (addChild player "button" (JObj [("text", JStr "Quality")]) button) t ->
  step (Fire (on_click button)) slot s = (slot, s, []).
Proof.
  intros R H. pose proof (Inv_reachable lv events slot s t R) as I.
  rewrite (fire_click_eq s slot t button I).
  now rewrite (proj2 (inv_children _ _ _ I _ _ _ _ H)).
Qed.

(** * The claims of the specification *)

(** C1. In every run of the wrapper from the empty page -- mounts, unmounts,
    renders with other props, clicks and widget events in any order -- the
    constructions and disposals in the call list alternate strictly, starting
    with a construction and each disposal hitting the player constructed last;
    a step issues exactly one construction and no disposal when it mounts the
    wrapper, exactly one disposal and no construction when it unmounts it, and
    neither in every other case, a render with other props included. *)
Theorem mount_unmount_alternate
  (lv : option nat) (events : list Event) (e : Event)
  (slot : Slot) (s : Store) (t : list Call) :
  run events None (boot lv) = (slot, s, t) ->
  lifecycle None t = Some (live_player slot) /\
  (count is_videojs (snd (step e slot s)), count is_dispose (snd (step e slot s))) =
  match e, slot with
  | Mount _, None => (1, 0)
  | Unmount, Some _ => (0, 1)
  | _, _ => (0, 0)
  end.
Proof.
  intros R. pose proof (Inv_reachable lv events slot s t R) as I.
  split; [exact (inv_life _ _ _ I)|].
  destruct (step e slot s) as [[slot' s'] new] eqn:E.
  pose proof (step_calls e s slot t slot' s' new I E) as C. simpl snd.
  assert (H : (forall x, In x new -> quiet t x) ->
              (count is_videojs new, count is_dispose new) = (0, 0)).
  { intros N. destruct (quiet_counts t new N) as [-> [-> _]]. reflexivity. }
  destruct e as [p| |p|tg]; destruct slot as [c|]; auto.
  - subst new.
    destruct (count_mount_calls (levels s) (next_id s)) as [-> [-> _]].
    reflexivity.
  - destruct C as [el [p [_ [_ ->]]]]. reflexivity.
Qed.

Lemma mount_unmount_alternate_witness :
  let r := run [Mount demo_props; Rerender (mkProps "other.m3u8" None); Unmount]
               None (boot None) in
  lifecycle None (snd r) = Some (live_player (fst (fst r))) /\
  (count is_videojs (snd (step (Mount demo_props) (fst (fst r)) (snd (fst r)))),
   count is_dispose (snd (step (Mount demo_props) (fst (fst r)) (snd (fst r))))) =
  (1, 0).
Proof.
  intros r.
  apply (mount_unmount_alternate None
           [Mount demo_props; Rerender (mkProps "other.m3u8" None); Unmount]
           (Mount demo_props) (fst (fst r)) (snd (fst r)) (snd r)).
  reflexivity.
Defined.

(** C2. While the wrapper is mounted, each of the rates 0.5, 1, 1.5 and 2 has
    a menu item created for the current player, and a click on that item
    issues exactly one call, [playbackRate] of that player with that rate,
    and changes nothing else. *)
Theorem speed_control_sets_rate
  (lv : option nat) (events : list Event)
  (c : VideoPlayer) (s : Store) (t : list Call) (rate : Q) :
  run events None (boot lv) = (Some c, s, t) ->
  In rate playbackRates ->
  exists player item,
    playerRef c = Some player /\
    In (createEl player "li" rate item) t /\
    step (Fire (on_click item)) (Some c) s =
    (Some c, s, [ playbackRate player rate ]).
Proof.
  intros R H. pose proof (Inv_reachable lv events _ s t R) as I.
  destruct (inv_refs _ _ _ I c eq_refl) as [el [p [_ [P _]]]].
  destruct (inv_rates _ _ _ I c p eq_refl P rate H) as [item C].
  exists p, item. repeat split; auto.
  rewrite (fire_click_eq s (Some c) t item I).
  now rewrite (inv_items _ _ _ I _ _ _ _ C).
Qed.

Lemma speed_control_sets_rate_witness :
  exists player item,
    Some 1 = Some player /\
    In (createEl player "li" (3 # 2) item)
       (snd (run [Mount demo_props; Fire (on_ready 1)] None (boot None))) /\
    step (Fire (on_click item))
         (Some (mkPlayer demo_props (Some 0) (Some 1) true (Some dispose_player)))
         (snd (fst (run [Mount demo_props; Fire (on_ready 1)] None (boot None)))) =
    (Some (mkPlayer demo_props (Some 0) (Some 1) true (Some dispose_player)),
     snd (fst (run [Mount demo_props; Fire (on_ready 1)] None (boot None))),
     [ playbackRate player (3 # 2) ]).
Proof.
  apply (speed_control_sets_rate None [Mount demo_props; Fire (on_ready 1)]
           (mkPlayer demo_props (Some 0) (Some 1) true (Some dispose_player))
           _ _ (3 # 2)%Q).
  - reflexivity.
  - simpl. auto.
Defined.



(** C10. With a null container ref the mount effect returns at once: no call
    is made, so no widget is constructed, the store is untouched, and the
    instance comes back as it was, without a cleanup function; unmounting
    such an instance disposes of nothing. The computation is total, no error
    path exists. *)
Theorem null_container_is_noop
  (p : VideoPlayerProps) (pr : option Id) (rd : bool) (cl : option Cleanup)
  (s : Store) :
  mountEffect (mkPlayer p None pr rd cl) s = (mkPlayer p None pr rd cl, s, []) /\
  (let c := fst (fst (mountEffect (mkPlayer p None None false None) s)) in
   cleanup c = None /\ playerRef c = None /\ unmount c s = (tt, s, [])).
Proof. repeat split. Qed.

(** C4 as written fails: in the session that opens the player on
    https://host/playlist.m3u8 and lets the widget report ready, no
    construction call carries the URL or the MIME type; both reach the widget
    in the [src] call that follows the ready event. *)
Lemma construction_carries_no_source :
  let t := snd (run [Mount demo_props; Fire (on_ready 1)] None (boot None)) in
  constructed_with "https://host/playlist.m3u8" "application/x-mpegURL" t = false /\
  mentions "https://host/playlist.m3u8" playerOptions = false /\
  mentions "application/x-mpegURL" playerOptions = false /\
  In (videojs 0 playerOptions 1) t /\
  count is_videojs t = 1.
Proof. repeat split. simpl. auto. Qed.

(** C4, amended. Mounting the wrapper with any [videoUrl] constructs the
    widget exactly once, with the options controls, autoplay, responsive and
    fluid true, preload auto and html5.hls.overrideNative true, and with no
    source among them; the mount itself makes no [src] call. When that widget
    then reports ready, exactly one call follows: [src] with that exact URL
    and the type application/x-mpegURL. *)
Theorem widget_configured_then_sourced
  (lv : option nat) (events : list Event) (s : Store) (t : list Call)
  (url : string) (cb : option Callback)
  (c : VideoPlayer) (s1 : Store) (new : list Call) :
  run events None (boot lv) = (None, s, t) ->
  mount (mkProps url cb) s = (c, s1, new) ->
  exists element player rest,
    new = videojs element playerOptions player :: rest /\
    count is_videojs rest = 0 /\ count is_src new = 0 /\
    playerRef c = Some player /\
    path ["controls"] playerOptions = Some (JBool true) /\
    path ["autoplay"] playerOptions = Some (JBool true) /\
    path ["preload"] playerOptions = Some (JStr "auto") /\
    path ["responsive"] playerOptions = Some (JBool true) /\
    path ["fluid"] playerOptions = Some (JBool true) /\
    path ["html5"; "hls"; "overrideNative"] playerOptions = Some (JBool true) /\
    field "sources" playerOptions = None /\ field "src" playerOptions = None /\
    snd (step (Fire (on_ready player)) (Some c) s1) =
    [ src player (JObj [ ("src", JStr url);
                         ("type", JStr "application/x-mpegURL") ]) ].
Proof.
  intros R E. pose proof (Inv_reachable lv events _ s t R) as I.
  pose proof (Inv_mount _ s t c s1 new I E) as I1.
  destruct s as [n l0 l]. rewrite mount_eq in E. injection E as <- <- <-.
  exists n, (1 + n), (tl (mount_calls l0 n)).
  split; [reflexivity|].
  split; [destruct l0 as [[|k]|]; reflexivity|].
  split; [apply count_mount_calls|].
  repeat (split; [reflexivity|]).
  rewrite (fire_ready_eq _ _ _ (1 + n) I1).
  cbn [owns playerRef isReady]. change (1 + n) with (S n).
  rewrite Nat.eqb_refl. reflexivity.
Qed.

Lemma widget_configured_then_sourced_witness :
  exists element player rest,
    mount_calls None 0 = videojs element playerOptions player :: rest /\
    count is_videojs rest = 0 /\ count is_src (mount_calls None 0) = 0 /\
    Some 1 = Some player /\
    path ["controls"] playerOptions = Some (JBool true) /\
    path ["autoplay"] playerOptions = Some (JBool true) /\
    path ["preload"] playerOptions = Some (JStr "auto") /\
    path ["responsive"] playerOptions = Some (JBool true) /\
    path ["fluid"] playerOptions = Some (JBool true) /\
    path ["html5"; "hls"; "overrideNative"] playerOptions = Some (JBool true) /\
    field "sources" playerOptions = None /\ field "src" playerOptions = None /\
    snd (step (Fire (on_ready player))
              (Some (mkPlayer demo_props (Some 0) (Some 1) false
                              (Some dispose_player)))
              (snd (fst (mount demo_props (boot None))))) =
    [ src player (JObj [ ("src", JStr "https://host/playlist.m3u8");
                         ("type", JStr "application/x-mpegURL") ]) ].
Proof.
  apply (widget_configured_then_sourced None [] (boot None) []
           "https://host/playlist.m3u8" None
           (mkPlayer demo_props (Some 0) (Some 1) false (Some dispose_player))
           (snd (fst (mount demo_props (boot None))))
           (mount_calls None 0)).
  - reflexivity.
  - reflexivity.
Defined.

(** C7 as written fails: the rate controls do not wait for the ready flag.
    Right after the mount, before the widget has reported ready, the item of
    the 2x rate is there and a click on it calls [playbackRate]. *)
Lemma rate_control_live_before_ready : ~ rate_controls_wait_for_ready.
Proof.
  intros G.
  destruct (G None [Mount demo_props] 6
              (Some (mkPlayer demo_props (Some 0) (Some 1) false
                              (Some dispose_player)))
              (snd (fst (run [Mount demo_props] None (boot None))))
              (snd (run [Mount demo_props] None (boot None)))
              1 (2 # 1)%Q eq_refl (or_introl eq_refl)) as [c [E R]].
  injection E as <-. discriminate R.
Qed.

(** C7, amended. In every run each [playbackRate] call comes after the
    construction of the player it is made on, because a rate handler is only
    ever subscribed for a player that has been constructed: the mount effect
    subscribes the handlers right after the construction, without waiting for
    the ready flag. No quality call is there to be ordered: the Quality button
    of the wrapper carries no listener. *)
Theorem construction_precedes_rate
  (lv : option nat) (events : list Event)
  (slot : Slot) (s : Store) (t : list Call) :
  run events None (boot lv) = (slot, s, t) ->
  (forall pre p r post,
      t = pre ++ playbackRate p r :: post ->
      exists el o, In (videojs el o p) pre) /\
  (forall tg p r,
      In (tg, rate_click p r) (subs s) ->
      exists el o, In (videojs el o p) t) /\
  (forall player button,
      In (addChild player "button" (JObj [("text", JStr "Quality")]) button) t ->
      step (Fire (on_click button)) slot s = (slot, s, [])).
Proof.
  intros R. pose proof (Inv_reachable lv events slot s t R) as I.
  split; [exact (inv_order _ _ _ I)|].
  split; [exact (inv_built _ _ _ I)|].
  intros player button H.
  exact (quality_button_idle lv events slot s t player button R H).
Qed.

Lemma construction_precedes_rate_witness :
  let r := run [Mount demo_props; Fire (on_click 6)] None (boot (Some 1)) in
  (exists el o, In (videojs el o 1) (mount_calls (Some 1) 0)) /\
  (exists el o, In (videojs el o 1) (snd r)) /\
  step (Fire (on_click 7)) (fst (fst r)) (snd (fst r)) =
  (fst (fst r), snd (fst r), []).
Proof.
  intros r.
  destruct (construction_precedes_rate (Some 1)
              [Mount demo_props; Fire (on_click 6)]
              (fst (fst r)) (snd (fst r)) (snd r) eq_refl) as [A [B C]].
  split; [|split].
  - apply (A (mount_calls (Some 1) 0) 1 (2 # 1)%Q []). reflexivity.
  - apply (B (on_click 6) 1 (2 # 1)%Q). simpl. auto 10.
  - apply (C 1 7). simpl. auto 20.
Defined.

(** C9 as written fails: the wrapper subscribes to no error event, so nothing
    is logged. With the player mounted and ready, an error event of the widget
    yields no call. *)
Lemma error_event_not_logged : ~ error_is_logged.
Proof.
  intros G.
  destruct (G None [Mount demo_props; Fire (on_ready 1)]
              (Some (mkPlayer demo_props (Some 0) (Some 1) true
                              (Some dispose_player)))
              (snd (fst (run [Mount demo_props; Fire (on_ready 1)] None (boot None))))
              (snd (run [Mount demo_props; Fire (on_ready 1)] None (boot None)))
              1 eq_refl eq_refl) as [message H].
  exact H.
Qed.

(** C9, amended. An event of the widget, the error event included, runs no
    handler of the wrapper: no call at all is made -- no log line, no retry,
    no other source -- and the wrapper's state and the store stay as they
    are; inside the modal host the page state stays as it is too, so nothing
    reaches the host. *)
Theorem widget_event_ignored
  (lv : option nat) (p : Id) (name : string) :
  (forall (events : list Event) (slot : Slot) (s : Store) (t : list Call),
      run events None (boot lv) = (slot, s, t) ->
      step (Fire (on_event p name)) slot s = (slot, s, [])) /\
  (forall (events : list HomeEvent) (h : Home) (s : Store) (t : list Call),
      home_run events home_init (boot lv) = (h, s, t) ->
      home_step (Widget (on_event p name)) h s = (h, s, [])).
Proof.
  split.
  - intros events slot s t R.
    exact (fire_event_eq s slot t p name (Inv_reachable lv events slot s t R)).
  - intros events h s t R.
    pose proof (hinv_wrapper _ _ _ (HInv_reachable lv events h s t R)) as I.
    unfold home_step, bind.
    rewrite (fire_event_eq s (slot_of h) t p name I). simpl.
    rewrite with_wrapper_same. now destruct h.
Qed.

Lemma widget_event_ignored_witness :
  step (Fire (on_event 1 "error"))
       (fst (fst (run [Mount demo_props; Fire (on_ready 1)] None (boot None))))
       (snd (fst (run [Mount demo_props; Fire (on_ready 1)] None (boot None)))) =
  (fst (fst (run [Mount demo_props; Fire (on_ready 1)] None (boot None))),
   snd (fst (run [Mount demo_props; Fire (on_ready 1)] None (boot None))), []) /\
  home_step (Widget (on_event 1 "error"))
       (fst (fst (home_run [ClickStart] home_init (boot None))))
       (snd (fst (home_run [ClickStart] home_init (boot None)))) =
  (fst (fst (home_run [ClickStart] home_init (boot None))),
   snd (fst (home_run [ClickStart] home_init (boot None))), []).
Proof.
  split.
  - apply (proj1 (widget_event_ignored None 1 "error")
             [Mount demo_props; Fire (on_ready 1)] _ _
             (snd (run [Mount demo_props; Fire (on_ready 1)] None (boot None)))).
    reflexivity.
  - apply (proj2 (widget_event_ignored None 1 "error") [ClickStart] _ _
             (snd (home_run [ClickStart] home_init (boot None)))).
    reflexivity.
Defined.

(** C5. In every state the page can reach, the modal is open exactly when a
    wrapper is mounted that holds a widget, and that widget is then the only
    player constructed and not disposed; with the modal closed there is none.
    So at most one session exists, and along the whole call list no player is
    constructed while another is live. *)
Theorem session_iff_open
  (lv : option nat) (events : list HomeEvent)
  (h : Home) (s : Store) (t : list Call) :
  home_run events home_init (boot lv) = (h, s, t) ->
  (isOpen h = true <->
   exists e player, content h = Some e /\ playerRef (wrapper e) = Some player /\
                    sessions t = [ player ]) /\
  (isOpen h = false <-> content h = None /\ sessions t = []) /\
  List.length (sessions t) <= 1 /\
  lifecycle None t = Some (live_player (slot_of h)).
Proof.
  intros R. destruct (HInv_reachable lv events h s t R) as [I O _].
  pose proof (inv_life _ _ _ I) as L.
  assert (S : sessions t = option_list (live_player (slot_of h)))
    by exact (sessions_lifecycle t None _ L).
  unfold slot_of in *. destruct (content h) as [e|]; simpl in *.
  - destruct (inv_refs _ _ _ I _ eq_refl) as [el [p [_ [P _]]]].
    rewrite P in S. simpl in S. rewrite S, O. repeat split; try discriminate.
    + intros _. exists e, p. auto.
    + intros [E _]. discriminate E.
    + simpl. lia.
    + exact L.
  - rewrite S, O. repeat split; try discriminate; auto.
    intros [e [p [E _]]]. discriminate E.
Qed.

Lemma session_iff_open_witness :
  let r := home_run [ClickStart; Widget (on_ready 1); OpenChange false; ClickStart]
                    home_init (boot (Some 2)) in
  (isOpen (fst (fst r)) = true <->
   exists e player, content (fst (fst r)) = Some e /\
                    playerRef (wrapper e) = Some player /\
                    sessions (snd r) = [ player ]) /\
  (isOpen (fst (fst r)) = false <->
   content (fst (fst r)) = None /\ sessions (snd r) = []) /\
  List.length (sessions (snd r)) <= 1 /\
  lifecycle None (snd r) = Some (live_player (slot_of (fst (fst r)))).
Proof.
  intros r.
  apply (session_iff_open (Some 2)
           [ClickStart; Widget (on_ready 1); OpenChange false; ClickStart]
           (fst (fst r)) (snd (fst r)) (snd r)).
  vm_compute. reflexivity.
Defined.


(** C8. Selecting any of the labels auto, 1080, 720, 480 and 360 makes no
    call at all, hence none into the widget; it leaves the store, the modal
    state and the wrapper's own state as they are and changes the selected
    label alone. On the side of VideoPlayer.tsx, the Quality button that the
    mount effect adds to the control bar carries no listener: a click on it
    makes no call and changes nothing. *)
Theorem quality_label_is_display_only (label : string) :
  In label resolutions ->
  (forall (h : Home) (e : EnhancedVideoPlayer) (s : Store),
      content h = Some e ->
      home_step (SelectQuality label) h s =
      (mkHome (isOpen h) (Some (mkEnhanced (wrapper e) label)), s, [])) /\
  (forall (lv : option nat) (events : list Event)
          (slot : Slot) (s : Store) (t : list Call) (player button : Id),
      run events None (boot lv) = (slot, s, t) ->
      In (addChild player "button" (JObj [("text", JStr "Quality")]) button) t ->
      step (Fire (on_click button)) slot s = (slot, s, [])).
Proof.
  intros _. split.
  - intros h e s C. simpl. now rewrite C.
  - intros lv events slot s t player button R H.
    exact (quality_button_idle lv events slot s t player button R H).
Qed.

Lemma quality_label_is_display_only_witness :
  home_step (SelectQuality "720")
    (mkHome true
       (Some (mkEnhanced
                (mkPlayer home_props (Some 0) (Some 1) true (Some dispose_player))
                "auto")))
    (snd (fst (home_run [ClickStart; Widget (on_ready 1)] home_init (boot None)))) =
  (mkHome true
     (Some (mkEnhanced
              (mkPlayer home_props (Some 0) (Some 1) true (Some dispose_player))
              "720")),
   snd (fst (home_run [ClickStart; Widget (on_ready 1)] home_init (boot None))),
   []) /\
  step (Fire (on_click 7))
       (fst (fst (run [Mount demo_props] None (boot (Some 3)))))
       (snd (fst (run [Mount demo_props] None (boot (Some 3))))) =
  (fst (fst (run [Mount demo_props] None (boot (Some 3)))),
   snd (fst (run [Mount demo_props] None (boot (Some 3)))), []).
Proof.
  assert (L : In "720" resolutions) by (simpl; auto).
  split.
  - apply (proj1 (quality_label_is_display_only "720" L)
             (mkHome true
                (Some (mkEnhanced
                         (mkPlayer home_props (Some 0) (Some 1) true
                                   (Some dispose_player))
                         "auto")))
             (mkEnhanced
                (mkPlayer home_props (Some 0) (Some 1) true (Some dispose_player))
                "auto")).
    reflexivity.
  - apply (proj2 (quality_label_is_display_only "720" L) (Some 3)
             [Mount demo_props] _ _
             (snd (run [Mount demo_props] None (boot (Some 3)))) 1 7).
    + reflexivity.
    + simpl. auto 20.
Defined.


(** * Further properties of the wrapper *)

(** ** One step, seen from its [src] calls, its props and its store *)

Lemma app_split_at {A} (t new pre post : list A) (x : A) :
  t ++ new = pre ++ x :: post ->
  (exists l, t = pre ++ x :: l) \/
  (exists pre', pre = t ++ pre' /\ new = pre' ++ x :: post).
Proof.
  intros E. apply app_eq_app in E as [l [[E1 E2]|[E1 E2]]].
  - destruct l as [|y l].
    + right. exists []. rewrite app_nil_r in E1. subst pre.
      split; [now rewrite app_nil_r | simpl in *; congruence].
    + left. simpl in E2. injection E2 as E3 E4. subst y. now exists l.
  - right. now exists l.
Qed.

Lemma src_mount_calls lv n x : In x (mount_calls lv n) -> is_src x = false.
Proof.
  intros I. unfold mount_calls, rate_calls in I.
  destruct lv as [[|k]|]; simpl in I;
    repeat (destruct I as [I|I]; [subst x; reflexivity|]); contradiction.
Qed.

Lemma rate_calls_not_src hs x :
  In x (flat_map handler_calls hs) -> is_src x = false.
Proof.
  intros H. apply in_flat_map in H as [h [_ H]].
  destruct h; simpl in H; [|contradiction]. destruct H as [<-|[]]. reflexivity.
Qed.

(** A step makes no [src] call, or exactly one and nothing else: on the player
    of the mounted instance, with the URL the instance holds after the step,
    and only when the instance is ready after the step. *)
Lemma step_src e s slot t slot' s' new :
  Inv s slot t -> step e slot s = (slot', s', new) ->
  (forall x, In x new -> is_src x = false) \/
  (exists c c' p,
      slot = Some c /\ slot' = Some c' /\
      playerRef c = Some p /\ isReady c' = true /\
      new = [ src p (hlsSource (videoUrl (props c'))) ]).
Proof.
  intros I E. destruct e as [p| |p|tg].
  - left. pose proof (step_calls _ _ _ _ _ _ _ I E) as C.
    destruct slot as [c|]; simpl in C.
    + simpl in E. injection E as <- <- <-. intros x [].
    + subst new. intros x. apply src_mount_calls.
  - left. pose proof (step_calls _ _ _ _ _ _ _ I E) as C.
    destruct slot as [c|]; simpl in C.
    + destruct C as [el [q [_ [_ ->]]]]. intros x [<-|[<-|[]]]; reflexivity.
    + simpl in E. injection E as <- <- <-. intros x [].
  - destruct slot as [c|]; simpl in E.
    + destruct (inv_refs _ _ _ I c eq_refl) as [el [q [_ [P _]]]].
      unfold bind, rerender in E. cbv zeta in E.
      destruct (String.eqb (videoUrl p) (videoUrl (props c))).
      * injection E as <- <- <-. left. intros x [].
      * unfold bind in E. rewrite sourceEffect_eq in E. simpl in E.
        rewrite P in E. destruct (isReady c) eqn:R; injection E as <- <- <-.
        -- right. exists c, (mkPlayer p (videoRef c) (playerRef c) true (cleanup c)), q.
           simpl. repeat split; auto. now rewrite P.
        -- left. intros x [].
    + injection E as <- <- <-. left. intros x [].
  - destruct tg as [x|q|q name].
    + rewrite (fire_click_eq s slot t x I) in E. injection E as <- <- <-.
      left. intros y. apply rate_calls_not_src.
    + rewrite (fire_ready_eq s slot t q I) in E. destruct slot as [c|].
      * destruct (owns q c) eqn:O; simpl in E.
        -- destruct (isReady c) eqn:R; simpl in E; injection E as <- <- <-.
           ++ left. intros x [].
           ++ right. exists c, (readied c), q. apply owns_true in O. simpl. auto.
        -- injection E as <- <- <-. left. intros x [].
      * injection E as <- <- <-. left. intros x [].
    + rewrite (fire_event_eq s slot t q name I) in E. injection E as <- <- <-.
      left. intros x [].
Qed.

(** The props after a step are those before it, unless the step is a mount or
    a render, which installs the props it carries. *)
Lemma step_props e s slot t slot' s' new c' :
  Inv s slot t -> step e slot s = (slot', s', new) -> slot' = Some c' ->
  (exists c, slot = Some c /\ props c' = props c) \/
  (exists p, (e = Mount p \/ e = Rerender p) /\ props c' = p).
Proof.
  intros I E ->. destruct e as [p| |p|tg].
  - destruct slot as [c|]; simpl in E.
    + injection E as <- _ _. left. eauto.
    + destruct s as [n lv l]. unfold bind in E. rewrite mount_eq in E.
      injection E as <- _ _. right. exists p. auto.
  - destruct slot as [c|]; simpl in E.
    + unfold bind in E. destruct (unmount c s) as [[u s1] t1].
      simpl in E. discriminate E.
    + discriminate E.
  - destruct slot as [c|]; simpl in E; [|discriminate E].
    unfold bind, rerender in E. cbv zeta in E. right. exists p.
    destruct (String.eqb (videoUrl p) (videoUrl (props c))).
    + injection E as <- _ _. auto.
    + unfold bind in E. rewrite sourceEffect_eq in E. simpl in E.
      injection E as <- _ _. auto.
  - left. destruct (fire_effect tg s slot t _ s' new I E) as [[Sh|[c [-> Sh]]] _].
    + subst slot. eauto.
    + injection Sh as ->. exists c. auto.
Qed.

(** The store after a step: identities are never reused, and a subscription
    that is there after the step was there before, or the step is a mount and
    the subscription is one of the five it makes. *)
Lemma step_store e s slot t slot' s' new :
  Inv s slot t -> step e slot s = (slot', s', new) ->
  next_id s <= next_id s' /\ levels s' = levels s /\
  forall tg h, In (tg, h) (subs s') ->
    In (tg, h) (subs s) \/
    In (tg, h) (rate_subs (1 + next_id s) (3 + next_id s) ++
                [ (on_ready (1 + next_id s), set_ready (1 + next_id s)) ]).
Proof.
  intros I E. destruct e as [p| |p|tg].
  - destruct slot as [c|]; simpl in E.
    + injection E as _ <- _. repeat split; auto.
    + destruct s as [n lv l]. unfold bind in E. rewrite mount_eq in E.
      injection E as _ <- _. simpl. repeat split; [lia|].
      intros tg h H. apply in_app_or in H as [H|H]; auto.
  - destruct slot as [c|]; simpl in E.
    + destruct (inv_refs _ _ _ I c eq_refl) as [el [q [R [P C]]]].
      unfold bind in E. rewrite (unmount_eq c el q s R P C) in E.
      injection E as _ <- _. repeat split; auto.
    + injection E as _ <- _. repeat split; auto.
  - destruct slot as [c|]; simpl in E.
    + unfold bind, rerender in E. cbv zeta in E.
      destruct (String.eqb (videoUrl p) (videoUrl (props c))).
      * injection E as _ <- _. repeat split; auto.
      * unfold bind in E. rewrite sourceEffect_eq in E. simpl in E.
        injection E as _ <- _. repeat split; auto.
    + injection E as _ <- _. repeat split; auto.
  - destruct tg as [x|q|q name].
    + rewrite (fire_click_eq s slot t x I) in E. injection E as _ <- _.
      repeat split; auto.
    + rewrite (fire_ready_eq s slot t q I) in E.
      assert (S' : s' = taken (on_ready q) s).
      { destruct slot as [c|]; [destruct (owns q c && negb (isReady c))|];
          now injection E as _ <- _. }
      subst s'. simpl. repeat split; [lia|].
      intros tg h H. left. now apply filter_In in H.
    + rewrite (fire_event_eq s slot t q name I) in E. injection E as _ <- _.
      repeat split; auto.
Qed.

(** The rate calls of a step come from handlers that were subscribed. *)
Lemma step_rates e s slot t slot' s' new p r :
  Inv s slot t -> step e slot s = (slot', s', new) ->
  In (playbackRate p r) new -> exists tg, In (tg, rate_click p r) (subs s).
Proof.
  intros I E H.
  destruct (step_src e s slot t slot' s' new I E) as [N|[c [c' [q [_ [_ [_ [_ N]]]]]]]].
  - destruct e as [p0| |p0|tg].
    + pose proof (step_calls _ _ _ _ _ _ _ I E) as C.
      destruct slot as [c|]; simpl in C.
      * simpl in E. injection E as _ _ <-. contradiction.
      * subst new. now apply playbackRate_mount_calls in H.
    + pose proof (step_calls _ _ _ _ _ _ _ I E) as C.
      destruct slot as [c|]; simpl in C.
      * destruct C as [el [q [_ [_ ->]]]]. destruct H as [H|[H|[]]]; discriminate H.
      * simpl in E. injection E as _ _ <-. contradiction.
    + destruct slot as [c|]; simpl in E.
      * unfold bind, rerender in E. cbv zeta in E.
        destruct (String.eqb (videoUrl p0) (videoUrl (props c))).
        -- injection E as _ _ <-. contradiction.
        -- unfold bind in E. rewrite sourceEffect_eq in E. simpl in E.
           injection E as _ _ <-. rewrite app_nil_r in H.
           destruct (playerRef c); [destruct (isReady c)|]; simpl in H;
             try contradiction. destruct H as [H|[]]. discriminate H.
      * injection E as _ _ <-. contradiction.
    + destruct tg as [x|q|q name].
      * rewrite (fire_click_eq s slot t x I) in E. injection E as _ _ <-.
        apply in_flat_map in H as [h [Hh H]]. apply handlers_In in Hh.
        destruct h; simpl in H; [|contradiction].
        destruct H as [H|[]]. injection H as -> ->. eauto.
      * rewrite (fire_ready_eq s slot t q I) in E.
        destruct slot as [c|]; [destruct (owns q c && negb (isReady c))|];
          injection E as _ _ <-; try contradiction.
        destruct H as [H|[]]. discriminate H.
      * rewrite (fire_event_eq s slot t q name I) in E. injection E as _ _ <-.
        contradiction.
  - subst new. destruct H as [H|[]]. discriminate H.
Qed.

(** ** Induction along a run *)

Lemma run_invariant (J : Store -> Slot -> list Call -> Prop) events :
  (forall e s slot t slot' s' new,
      In e events -> Inv s slot t -> J s slot t ->
      step e slot s = (slot', s', new) -> J s' slot' (t ++ new)) ->
  forall s slot t slot' s' new,
    Inv s slot t -> J s slot t ->
    run events slot s = (slot', s', new) -> J s' slot' (t ++ new).
Proof.
  induction events as [|e rest IH]; intros St s slot t slot' s' new I H E.
  - injection E as <- <- <-. now rewrite app_nil_r.
  - rewrite run_cons in E.
    destruct (step e slot s) as [[slot1 s1] t1] eqn:S1.
    destruct (run rest slot1 s1) as [[slot2 s2] t2] eqn:S2.
    injection E as <- <- <-. rewrite app_assoc.
    apply (IH (fun e0 s0 sl0 t0 sl0' s0' n0 M =>
                 St e0 s0 sl0 t0 sl0' s0' n0 (or_intror M)) s1 slot1);
      [ | | exact S2].
    + exact (Inv_step e s slot t slot1 s1 t1 I S1).
    + exact (St e s slot t slot1 s1 t1 (or_introl eq_refl) I H S1).
Qed.

Lemma reachable_invariant (J : Store -> Slot -> list Call -> Prop)
      lv events slot s t :
  (forall e s slot t slot' s' new,
      In e events -> Inv s slot t -> J s slot t ->
      step e slot s = (slot', s', new) -> J s' slot' (t ++ new)) ->
  J (boot lv) None [] ->
  run events None (boot lv) = (slot, s, t) ->
  J s slot t.
Proof.
  intros St B R.
  exact (run_invariant J events St (boot lv) None [] slot s t (Inv_boot lv) B R).
Qed.

(** ** The ready event *)

Lemma taken_twice tg s : taken tg (taken tg s) = taken tg s.
Proof.
  unfold taken. simpl. f_equal.
  induction (subs s) as [|e l IH]; [reflexivity|]. simpl.
  destruct (negb (target_eqb tg (fst e))) eqn:B; simpl; rewrite ?B; now rewrite IH.
Qed.

(** X1. In every reachable state in which the wrapper is mounted and not yet
    ready, the ready event of its player sets [isReady] and makes exactly one
    call: [src] with the URL the wrapper holds at that moment -- the one of
    the latest render, not the one of the mount -- and the HLS type. *)
Theorem ready_points_at_current_url
  (lv : option nat) (events : list Event)
  (c : VideoPlayer) (s : Store) (t : list Call) :
  run events None (boot lv) = (Some c, s, t) ->
  isReady c = false ->
  exists player,
    playerRef c = Some player /\
    step (Fire (on_ready player)) (Some c) s =
    (Some (readied c), taken (on_ready player) s,
     [ src player (JObj [ ("src", JStr (videoUrl (props c)));
                          ("type", JStr "application/x-mpegURL") ]) ]).
Proof.
  intros R N. pose proof (Inv_reachable lv events _ s t R) as I.
  destruct (inv_refs _ _ _ I c eq_refl) as [el [p [_ [P _]]]].
  exists p. split; [exact P|].
  rewrite (fire_ready_eq s (Some c) t p I), N.
  now rewrite (proj2 (owns_true p c) P).
Qed.

Lemma ready_points_at_current_url_witness :
  let r := run [Mount demo_props; Rerender (mkProps "next.m3u8" None)]
               None (boot None) in
  exists player,
    Some 1 = Some player /\
    step (Fire (on_ready player))
         (Some (mkPlayer (mkProps "next.m3u8" None) (Some 0) (Some 1) false
                         (Some dispose_player)))
         (snd (fst r)) =
    (Some (readied (mkPlayer (mkProps "next.m3u8" None) (Some 0) (Some 1) false
                             (Some dispose_player))),
     taken (on_ready player) (snd (fst r)),
     [ src player (JObj [ ("src", JStr "next.m3u8");
                          ("type", JStr "application/x-mpegURL") ]) ]).
Proof.
  intros r.
  apply (ready_points_at_current_url None
           [Mount demo_props; Rerender (mkProps "next.m3u8" None)]
           (mkPlayer (mkProps "next.m3u8" None) (Some 0) (Some 1) false
                     (Some dispose_player))
           (snd (fst r)) (snd r)).
  - vm_compute. reflexivity.
  - reflexivity.
Defined.

(** X2. The ready callback runs once. In every reachable state a ready event
    makes at most one call; a ready event of a player that the mounted
    wrapper does not hold, or with nothing mounted, makes none and leaves the
    wrapper as it is; and the same ready event fired a second time makes no
    call and changes nothing at all. *)
Theorem ready_runs_once
  (lv : option nat) (events : list Event) (q : Id)
  (slot : Slot) (s : Store) (t : list Call)
  (slot1 : Slot) (s1 : Store) (t1 : list Call) :
  run events None (boot lv) = (slot, s, t) ->
  step (Fire (on_ready q)) slot s = (slot1, s1, t1) ->
  List.length t1 <= 1 /\
  (live_player slot <> Some q -> slot1 = slot /\ t1 = []) /\
  step (Fire (on_ready q)) slot1 s1 = (slot1, s1, []).
Proof.
  intros R E. pose proof (Inv_reachable lv events _ s t R) as I.
  pose proof (Inv_fire _ s slot t slot1 s1 t1 I E) as I1.
  rewrite (fire_ready_eq s1 slot1 _ q I1).
  rewrite (fire_ready_eq s slot t q I) in E.
  destruct slot as [c|].
  - destruct (owns q c) eqn:O; simpl in E.
    + destruct (isReady c) eqn:Rd; simpl in E; injection E as <- <- <-.
      * rewrite O, Rd, taken_twice. simpl. repeat split; auto.
      * apply owns_true in O. simpl. rewrite (proj2 (owns_true q (readied c)) O).
        rewrite taken_twice. simpl. repeat split; auto; contradiction.
    + injection E as <- <- <-. rewrite O, taken_twice. simpl. repeat split; auto.
  - injection E as <- <- <-. rewrite taken_twice. simpl. repeat split; auto.
Qed.

Lemma ready_runs_once_witness :
  let r := run [Mount demo_props] None (boot None) in
  let r1 := step (Fire (on_ready 1)) (fst (fst r)) (snd (fst r)) in
  List.length (snd r1) <= 1 /\
  (live_player (fst (fst r)) <> Some 1 -> fst (fst r1) = fst (fst r) /\ snd r1 = []) /\
  step (Fire (on_ready 1)) (fst (fst r1)) (snd (fst r1)) =
  (fst (fst r1), snd (fst r1), []).
Proof.
  intros r r1.
  apply (ready_runs_once None [Mount demo_props] 1
           (fst (fst r)) (snd (fst r)) (snd r)
           (fst (fst r1)) (snd (fst r1)) (snd r1)).
  - vm_compute. reflexivity.
  - vm_compute. reflexivity.
Defined.



(** ** What the [src] calls of a run are *)

Lemma src_live_step e s slot t slot' s' new :
  Inv s slot t -> src_live t ->
  step e slot s = (slot', s', new) -> src_live (t ++ new).
Proof.
  intros I L E pre p o post H.
  apply app_split_at in H as [[l H]|[pre' [-> H]]].
  - exact (L pre p o l H).
  - destruct (step_src e s slot t slot' s' new I E)
      as [N|[c [c' [q [-> [_ [P [_ ->]]]]]]]].
    + assert (X : is_src (src p o) = false)
        by (apply N; rewrite H; apply in_or_app; right; now left).
      discriminate X.
    + destruct pre' as [|y pre'].
      * simpl in H. injection H as <- _ _. rewrite app_nil_r.
        rewrite (inv_life _ _ _ I). simpl. now rewrite P.
      * simpl in H. injection H as _ H. now destruct pre'.
Qed.

(** X4. A [src] call is only ever made on the live player: in every run, at
    the moment of each [src] call its player has been constructed and not
    disposed, and no other player is live. *)
Theorem src_only_on_live_player
  (lv : option nat) (events : list Event)
  (slot : Slot) (s : Store) (t : list Call)
  (pre post : list Call) (p : Id) (o : JSVal) :
  run events None (boot lv) = (slot, s, t) ->
  t = pre ++ src p o :: post ->
  lifecycle None pre = Some (Some p).
Proof.
  intros R. revert pre p o post.
  change (src_live t).
  exact (run_invariant (fun _ _ t => src_live t) events
           (fun e s slot t slot' s' new _ I L E =>
              src_live_step e s slot t slot' s' new I L E)
           (boot lv) None [] slot s t (Inv_boot lv)
           (fun pre p o post H => match app_cons_not_nil pre post (src p o) H with end)
           R).
Qed.

Lemma src_only_on_live_player_witness :
  lifecycle None (mount_calls None 0) = Some (Some 1).
Proof.
  apply (src_only_on_live_player None
           [Mount demo_props; Fire (on_ready 1); Unmount]
           None (mkStore 7 None (rate_subs 1 3))
           (mount_calls None 0 ++
            [ src 1 (hlsSource "https://host/playlist.m3u8");
              removeChild 0; dispose 1 ])
           (mount_calls None 0) [ removeChild 0; dispose 1 ] 1
           (hlsSource "https://host/playlist.m3u8")).
  - vm_compute. reflexivity.
  - reflexivity.
Defined.

Lemma urls_In e events p :
  In e events -> e = Mount p \/ e = Rerender p -> In (videoUrl p) (urls events).
Proof.
  intros H E. unfold urls. apply in_flat_map. exists e. split; [exact H|].
  destruct E as [->| ->]; now left.
Qed.

(** X5. The wrapper never makes up a source: in every run, each [src] call
    carries a URL that the parent passed in the props of a mount or of a
    render of that run, always with the type application/x-mpegURL. *)
Theorem src_urls_come_from_props
  (lv : option nat) (events : list Event)
  (slot : Slot) (s : Store) (t : list Call) (p : Id) (o : JSVal) :
  run events None (boot lv) = (slot, s, t) ->
  In (src p o) t ->
  exists url,
    In url (urls events) /\
    o = JObj [ ("src", JStr url); ("type", JStr "application/x-mpegURL") ].
Proof.
  intros R H.
  set (J := fun (_ : Store) (slot : Slot) (t : list Call) =>
              (forall c, slot = Some c -> In (videoUrl (props c)) (urls events)) /\
              (forall p o, In (src p o) t ->
                 exists url, In url (urls events) /\ o = hlsSource url)).
  assert (K : J s slot t).
  { apply (reachable_invariant J lv events slot s t); [ | | exact R].
    - intros e s0 sl0 t0 sl1 s1 new M I [A B] E.
      assert (A1 : forall c, sl1 = Some c -> In (videoUrl (props c)) (urls events)).
      { intros c' Hc.
        destruct (step_props e s0 sl0 t0 sl1 s1 new c' I E Hc)
          as [[c [Hs ->]]|[p0 [He ->]]].
        - now apply A.
        - exact (urls_In e events p0 M He). }
      split; [exact A1|].
      intros p0 o0 H0. apply in_app_or in H0 as [H0|H0]; [exact (B p0 o0 H0)|].
      destruct (step_src e s0 sl0 t0 sl1 s1 new I E)
        as [N|[c [c' [q [_ [Hc [_ [_ ->]]]]]]]].
      + apply N in H0. discriminate H0.
      + destruct H0 as [H0|[]]. injection H0 as _ <-.
        exists (videoUrl (props c')). split; [now apply A1 | reflexivity].
    - split; [discriminate | intros p0 o0 []]. }
  exact (proj2 K p o H).
Qed.

Lemma src_urls_come_from_props_witness :
  exists url,
    In url (urls [Mount demo_props; Rerender (mkProps "next.m3u8" None);
                  Fire (on_ready 1)]) /\
    hlsSource "next.m3u8" =
    JObj [ ("src", JStr url); ("type", JStr "application/x-mpegURL") ].
Proof.
  apply (src_urls_come_from_props None
           [Mount demo_props; Rerender (mkProps "next.m3u8" None);
            Fire (on_ready 1)]
           (Some (mkPlayer (mkProps "next.m3u8" None) (Some 0) (Some 1) true
                           (Some dispose_player)))
           (mkStore 7 None (rate_subs 1 3))
           (mount_calls None 0 ++ [ src 1 (hlsSource "next.m3u8") ])
           1 (hlsSource "next.m3u8")).
  - vm_compute. reflexivity.
  - apply in_or_app. right. now left.
Defined.

(** ** The quality selector and the rates *)

Lemma quiet_not_setup t x :
  quiet t x -> is_quality_button x = false /\ is_qualityLevels x = false.
Proof.
  intros [H|[p [r [-> _]]]]; [destruct x; try discriminate H|]; split; reflexivity.
Qed.

Lemma count_zero f new :
  (forall x, In x new -> f x = false) -> count f new = 0.
Proof.
  induction new as [|x new IH]; intros N; [reflexivity|].
  unfold count in *. simpl. rewrite (N x (or_introl eq_refl)).
  apply IH. intros y Y. apply N. now right.
Qed.

Lemma quality_counts_mount lv n :
  count is_qualityLevels (mount_calls lv n) =
  match lv with None => 0 | Some _ => 1 end /\
  count is_quality_button (mount_calls lv n) =
  match lv with Some (S _) => 1 | _ => 0 end.
Proof. destruct lv as [[|k]|]; split; reflexivity. Qed.

(** X6. The quality selector follows what the widget reports, mount by mount.
    Without the quality-levels plugin the wrapper never asks for the levels
    and never adds a Quality button; with the plugin and an empty list it
    asks once per constructed player and adds no button; with at least one
    level it asks once and adds one button per constructed player. *)
Theorem quality_button_follows_levels
  (lv : option nat) (events : list Event)
  (slot : Slot) (s : Store) (t : list Call) :
  run events None (boot lv) = (slot, s, t) ->
  count is_qualityLevels t =
  match lv with None => 0 | Some _ => count is_videojs t end /\
  count is_quality_button t =
  match lv with Some (S _) => count is_videojs t | _ => 0 end.
Proof.
  intros R.
  set (J := fun (s : Store) (_ : Slot) (t : list Call) =>
              levels s = lv /\
              count is_qualityLevels t =
              match lv with None => 0 | Some _ => count is_videojs t end /\
              count is_quality_button t =
              match lv with Some (S _) => count is_videojs t | _ => 0 end).
  assert (K : J s slot t).
  { apply (reachable_invariant J lv events slot s t); [ | | exact R].
    - intros e s0 sl0 t0 sl1 s1 new _ I [L [A B]] E.
      destruct (step_store e s0 sl0 t0 sl1 s1 new I E) as [_ [L1 _]].
      split; [congruence|]. rewrite !count_app, A, B.
      pose proof (step_calls e s0 sl0 t0 sl1 s1 new I E) as C.
      assert (Q : (forall x, In x new -> quiet t0 x) ->
                  count is_qualityLevels new = 0 /\
                  count is_quality_button new = 0 /\ count is_videojs new = 0).
      { intros N. repeat split.
        - apply count_zero. intros x X. now apply (quiet_not_setup t0), N.
        - apply count_zero. intros x X. now apply (quiet_not_setup t0), N.
        - apply (quiet_counts t0 new N). }
      assert (D : (count is_qualityLevels new = 0 /\
                   count is_quality_button new = 0 /\ count is_videojs new = 0) \/
                  new = mount_calls lv (next_id s0)).
      { destruct e as [p| |p|tg]; destruct sl0 as [c|]; simpl in C;
          try (left; exact (Q C)).
        - right. now rewrite <- L.
        - left. destruct C as [el [q [_ [_ ->]]]]. repeat split. }
      destruct D as [[-> [-> ->]]| ->].
      + destruct lv as [[|k]|]; split; lia.
      + destruct (quality_counts_mount lv (next_id s0)) as [-> ->].
        destruct (count_mount_calls lv (next_id s0)) as [-> _].
        destruct lv as [[|k]|]; split; lia.
    - repeat split; destruct lv as [[|k]|]; reflexivity. }
  exact (proj2 K).
Qed.

Lemma quality_button_follows_levels_witness :
  let t := snd (run [Mount demo_props; Unmount; Mount demo_props]
                    None (boot (Some 0))) in
  count is_qualityLevels t = count is_videojs t /\
  count is_quality_button t = 0.
Proof.
  intros t.
  apply (quality_button_follows_levels (Some 0)
           [Mount demo_props; Unmount; Mount demo_props]
           (fst (fst (run [Mount demo_props; Unmount; Mount demo_props]
                          None (boot (Some 0)))))
           (snd (fst (run [Mount demo_props; Unmount; Mount demo_props]
                          None (boot (Some 0)))))
           t).
  vm_compute. reflexivity.
Defined.

Lemma mount_subs_rate tg p r player item :
  In (tg, rate_click p r)
     (rate_subs player item ++ [ (on_ready player, set_ready player) ]) ->
  In r playbackRates.
Proof.
  unfold rate_subs, playbackRates. simpl. intros H.
  repeat (destruct H as [H|H]; [try discriminate H; injection H as _ _ <-; auto 6|]).
  contradiction.
Qed.

(** X7. The rate is never anything but one of the four: in every run, each
    [playbackRate] call carries 0.5, 1, 1.5 or 2. *)
Theorem rate_calls_use_listed_rates
  (lv : option nat) (events : list Event)
  (slot : Slot) (s : Store) (t : list Call) (p : Id) (r : Q) :
  run events None (boot lv) = (slot, s, t) ->
  In (playbackRate p r) t ->
  In r playbackRates.
Proof.
  intros R H.
  set (J := fun (s : Store) (_ : Slot) (t : list Call) =>
              (forall tg p r, In (tg, rate_click p r) (subs s) -> In r playbackRates) /\
              (forall p r, In (playbackRate p r) t -> In r playbackRates)).
  assert (K : J s slot t).
  { apply (reachable_invariant J lv events slot s t); [ | | exact R].
    - intros e s0 sl0 t0 sl1 s1 new _ I [A B] E. split.
      + intros tg p0 r0 H0.
        destruct (step_store e s0 sl0 t0 sl1 s1 new I E) as [_ [_ S]].
        destruct (S _ _ H0) as [H1|H1]; [exact (A _ _ _ H1)|].
        exact (mount_subs_rate _ _ _ _ _ H1).
      + intros p0 r0 H0. apply in_app_or in H0 as [H0|H0]; [exact (B _ _ H0)|].
        destruct (step_rates e s0 sl0 t0 sl1 s1 new p0 r0 I E H0) as [tg H1].
        exact (A _ _ _ H1).
    - split; [intros tg p0 r0 [] | intros p0 r0 []]. }
  exact (proj2 K p r H).
Qed.

Lemma rate_calls_use_listed_rates_witness : In (3 # 2)%Q playbackRates.
Proof.
  apply (rate_calls_use_listed_rates None
           [Mount demo_props; Fire (on_click 5)]
           (fst (fst (run [Mount demo_props; Fire (on_click 5)] None (boot None))))
           (snd (fst (run [Mount demo_props; Fire (on_click 5)] None (boot None))))
           (mount_calls None 0 ++ [ playbackRate 1 (3 # 2) ])
           1 (3 # 2)%Q).
  - vm_compute. reflexivity.
  - apply in_or_app. right. now left.
Defined.

(** ** Sessions one after the other *)

Lemma lifecycle_constructed t live p :
  lifecycle live t = Some (Some p) ->
  live = Some p \/ exists el o, In (videojs el o p) t.
Proof.
  revert live. induction t as [|c t IH]; intros live E; simpl in E.
  - left. now injection E.
  - assert (G : forall l, lifecycle l t = Some (Some p) ->
                          l = live \/ (exists el o, In (videojs el o p) (c :: t)) ->
                          live = Some p \/ exists el o, In (videojs el o p) (c :: t)).
    { intros l El [->|H]; [|now right].
      destruct (IH _ El) as [H|[el [o H]]]; [now left|].
      right. exists el, o. now right. }
    destruct c; try (apply (G live E); now left).
    + destruct live as [q|]; [discriminate E|].
      destruct (IH _ E) as [H|[el [o H]]].
      * injection H as ->. right. exists element, options. now left.
      * right. exists el, o. now right.
    + destruct live as [q|]; [|discriminate E].
      destruct (Nat.eqb player q); [|discriminate E].
      destruct (IH _ E) as [H|[el [o H]]]; [discriminate H|].
      right. exists el, o. now right.
Qed.

Lemma step_videojs e s slot t slot' s' new el o p :
  Inv s slot t -> step e slot s = (slot', s', new) ->
  In (videojs el o p) new -> p = 1 + next_id s /\ p < next_id s'.
Proof.
  intros I E H. pose proof (step_calls e s slot t slot' s' new I E) as C.
  assert (Q : (forall x, In x new -> quiet t x) -> False).
  { intros N. destruct (N _ H) as [X|[q [r [X _]]]]; discriminate X. }
  destruct e as [p0| |p0|tg]; destruct slot as [c|]; simpl in C;
    try (destruct (Q C)).
  - subst new. destruct s as [n lv l]. simpl in E. unfold bind in E.
    rewrite mount_eq in E. injection E as _ <- _. simpl.
    unfold mount_calls, rate_calls in H.
    destruct lv as [[|k]|]; simpl in H;
      repeat (destruct H as [H|H]; [try discriminate H; injection H as _ _ <-|]);
      try contradiction; split; lia.
  - destruct C as [e0 [q [_ [_ ->]]]]. destruct H as [H|[H|[]]]; discriminate H.
Qed.

(** Player identities are handed out once: every constructed player is below
    the next identity of the store. *)
Lemma players_bounded lv events slot s t el o p :
  run events None (boot lv) = (slot, s, t) ->
  In (videojs el o p) t -> p < next_id s.
Proof.
  intros R H.
  set (J := fun (s : Store) (_ : Slot) (t : list Call) =>
              forall el o p, In (videojs el o p) t -> p < next_id s).
  assert (K : J s slot t).
  { apply (reachable_invariant J lv events slot s t); [ | | exact R].
    - intros e s0 sl0 t0 sl1 s1 new _ I A E el0 o0 p0 H0.
      apply in_app_or in H0 as [H0|H0].
      + destruct (step_store e s0 sl0 t0 sl1 s1 new I E) as [B _].
        apply A in H0. lia.
      + now destruct (step_videojs e s0 sl0 t0 sl1 s1 new el0 o0 p0 I E H0).
    - intros el0 o0 p0 []. }
  exact (K el o p H).
Qed.

(** X8. Unmounting and mounting again starts a new session. The old player
    is disposed once and a new one is constructed once, with an identity no
    earlier construction had; the new instance holds the props of the new
    mount and is not ready, whatever the old one was; and the pair of steps
    makes no [src] call, so the new widget gets its source only when it
    reports ready itself. *)
Theorem remount_starts_afresh
  (lv : option nat) (events : list Event)
  (c : VideoPlayer) (s : Store) (t : list Call) (p : VideoPlayerProps)
  (slot' : Slot) (s' : Store) (new : list Call) :
  run events None (boot lv) = (Some c, s, t) ->
  run [Unmount; Mount p] (Some c) s = (slot', s', new) ->
  exists c' player,
    slot' = Some c' /\ props c' = p /\ isReady c' = false /\
    playerRef c' = Some player /\
    (forall el o, ~ In (videojs el o player) t) /\
    playerRef c <> Some player /\
    count is_dispose new = 1 /\ count is_videojs new = 1 /\
    count is_src new = 0.
Proof.
  intros R E. pose proof (Inv_reachable lv events _ s t R) as I.
  destruct (inv_refs _ _ _ I c eq_refl) as [el [q [V [P C]]]].
  assert (B : forall e0 o0 p0, In (videojs e0 o0 p0) t -> p0 < next_id s)
    by (intros e0 o0 p0; apply (players_bounded lv events _ s t e0 o0 p0 R)).
  assert (Lq : q < next_id s).
  { pose proof (inv_life _ _ _ I) as L. simpl in L. rewrite P in L.
    destruct (lifecycle_constructed t None q L) as [H|[e0 [o0 H]]];
      [discriminate H | exact (B _ _ _ H)]. }
  rewrite !run_cons in E. simpl step in E. unfold bind at 1 in E.
  rewrite (unmount_eq c el q s V P C) in E. simpl in E.
  destruct s as [n l0 l]. unfold bind in E. rewrite mount_eq in E.
  simpl in E. injection E as <- <- <-.
  eexists. exists (1 + n). repeat split; simpl.
  - intros e0 o0 H. apply B in H. simpl in H. lia.
  - rewrite P. intros [= ->]. simpl in Lq. lia.
  - destruct l0 as [[|k]|]; reflexivity.
  - destruct l0 as [[|k]|]; reflexivity.
  - destruct l0 as [[|k]|]; reflexivity.
Qed.

Lemma remount_starts_afresh_witness :
  let r := run [Mount demo_props; Fire (on_ready 1)] None (boot None) in
  let r' := run [Unmount; Mount (mkProps "next.m3u8" None)]
                (fst (fst r)) (snd (fst r)) in
  exists c' player,
    fst (fst r') = Some c' /\ props c' = mkProps "next.m3u8" None /\
    isReady c' = false /\ playerRef c' = Some player /\
    (forall el o, ~ In (videojs el o player) (snd r)) /\
    Some 1 <> Some player /\
    count is_dispose (snd r') = 1 /\ count is_videojs (snd r') = 1 /\
    count is_src (snd r') = 0.
Proof.
  intros r r'.
  apply (remount_starts_afresh None [Mount demo_props; Fire (on_ready 1)]
           (mkPlayer demo_props (Some 0) (Some 1) true (Some dispose_player))
           (snd (fst r)) (snd r) (mkProps "next.m3u8" None)
           (fst (fst r')) (snd (fst r')) (snd r')).
  - vm_compute. reflexivity.
  - vm_compute. reflexivity.
Defined.

Lemma mount_calls_players lv n x p :
  In x (mount_calls lv n) -> on_player x = Some p -> p = 1 + n.
Proof.
  intros I O. unfold mount_calls, rate_calls in I.
  destruct lv as [[|k]|]; simpl in I;
    repeat (destruct I as [I|I];
            [subst x; simpl in O; try discriminate O; now injection O|]);
    contradiction.
Qed.

Lemma mount_calls_head lv n :
  mount_calls lv n = videojs n playerOptions (1 + n) :: tl (mount_calls lv n).
Proof. reflexivity. Qed.

(** The players that the calls of one step are made on: constructed before
    the step, or the player that this very step constructs first. *)
Lemma step_players e s slot t slot' s' new pre' x post p :
  Inv s slot t -> step e slot s = (slot', s', new) ->
  new = pre' ++ x :: post -> on_player x = Some p ->
  exists el o, In (videojs el o p) (t ++ pre').
Proof.
  intros I E H O.
  assert (X : In x new) by (rewrite H; apply in_or_app; right; now left).
  assert (Old : (exists el o, In (videojs el o p) t) ->
                exists el o, In (videojs el o p) (t ++ pre')).
  { intros [el [o G]]. exists el, o. apply in_or_app. now left. }
  assert (Live : forall c, slot = Some c -> playerRef c = Some p ->
                           exists el o, In (videojs el o p) t).
  { intros c -> P. pose proof (inv_life _ _ _ I) as L. simpl in L. rewrite P in L.
    destruct (lifecycle_constructed t None p L) as [G|G]; [discriminate G | exact G]. }
  pose proof (step_calls e s slot t slot' s' new I E) as C.
  assert (Q : (forall y, In y new -> quiet t y) ->
              exists el o, In (videojs el o p) (t ++ pre')).
  { intros N. apply Old. destruct (N x X) as [S|[q [r [-> B]]]].
    - destruct (step_src e s slot t slot' s' new I E)
        as [M|[c [c' [q [Hs [_ [P [_ Hn]]]]]]]].
      + rewrite (M x X) in S. discriminate S.
      + rewrite Hn in X. destruct X as [<-|[]]. simpl in O. injection O as <-.
        exact (Live c Hs P).
    - simpl in O. now injection O as <-. }
  destruct e as [p0| |p0|tg]; destruct slot as [c|]; simpl in C;
    try exact (Q C).
  - rewrite C in X, H. rewrite (mount_calls_players _ _ x p X O).
    rewrite mount_calls_head in H. destruct pre' as [|y pre'].
    + simpl in H. injection H as H _. rewrite <- H in O. discriminate O.
    + simpl in H. injection H as <- _.
      exists (next_id s), playerOptions. apply in_or_app. right. now left.
  - destruct C as [el [q [_ [P C]]]]. rewrite C in X. apply Old.
    destruct X as [<-|[<-|[]]]; [discriminate O|].
    simpl in O. injection O as <-. exact (Live c eq_refl P).
Qed.

(** X9. No call is made on a player before its construction: in every run,
    whatever call names a player -- [addChild], [createEl], [qualityLevels],
    [ready], [playbackRate], [src] or [dispose] -- the construction of that
    player comes earlier in the call list. *)
Theorem calls_follow_construction
  (lv : option nat) (events : list Event)
  (slot : Slot) (s : Store) (t : list Call)
  (pre post : list Call) (x : Call) (p : Id) :
  run events None (boot lv) = (slot, s, t) ->
  t = pre ++ x :: post ->
  on_player x = Some p ->
  exists el o, In (videojs el o p) pre.
Proof.
  intros R. revert pre x post p.
  set (J := fun (_ : Store) (_ : Slot) (t : list Call) =>
              forall pre x post p,
                t = pre ++ x :: post -> on_player x = Some p ->
                exists el o, In (videojs el o p) pre).
  change (J s slot t).
  apply (reachable_invariant J lv events slot s t); [ | | exact R].
  - intros e s0 sl0 t0 sl1 s1 new _ I A E pre x post p H O.
    apply app_split_at in H as [[l H]|[pre' [-> H]]].
    + exact (A pre x l p H O).
    + exact (step_players e s0 sl0 t0 sl1 s1 new pre' x post p I E H O).
  - intros pre x post p H. now destruct pre.
Qed.

Lemma calls_follow_construction_witness :
  exists el o,
    In (videojs el o 1)
       (mount_calls (Some 2) 0 ++
        [ src 1 (hlsSource "https://host/playlist.m3u8"); removeChild 0 ]).
Proof.
  apply (calls_follow_construction (Some 2)
           [Mount demo_props; Fire (on_ready 1); Unmount]
           None (mkStore 8 (Some 2) (rate_subs 1 3))
           (mount_calls (Some 2) 0 ++
            [ src 1 (hlsSource "https://host/playlist.m3u8");
              removeChild 0; dispose 1 ])
           (mount_calls (Some 2) 0 ++
            [ src 1 (hlsSource "https://host/playlist.m3u8"); removeChild 0 ])
           [] (dispose 1) 1).
  - vm_compute. reflexivity.
  - vm_compute. reflexivity.
  - reflexivity.
Defined.

(** X10. The cleanup of the mount effect disposes at most once: run on any
    instance, its calls are exactly the disposal of the player the ref holds
    when it holds one, and none when it holds none; it clears the ref and
    leaves the rest of the instance and the store as they are, so that
    running it again makes no call and changes nothing. *)
Theorem cleanup_runs_once (c : VideoPlayer) (s : Store) :
  let r := runCleanup c s in
  snd r = match playerRef c with
          | Some player => [ dispose player ]
          | None => []
          end /\
  playerRef (fst (fst r)) = None /\
  (props (fst (fst r)), videoRef (fst (fst r)),
   isReady (fst (fst r)), cleanup (fst (fst r))) =
  (props c, videoRef c, isReady c, cleanup c) /\
  snd (fst r) = s /\
  count is_dispose (snd r) <= 1 /\
  runCleanup (fst (fst r)) (snd (fst r)) = (fst (fst r), snd (fst r), []).
Proof.
  unfold runCleanup. destruct (playerRef c) eqn:P; simpl.
  - repeat split. unfold count. simpl. lia.
  - rewrite P. repeat split. unfold count. simpl. lia.
Qed.

(** X11. Without a render that changes the props, a widget is pointed at its
    source at most once: in every run made of mounts, unmounts, clicks and
    widget events only, there are never more [src] calls than constructions,
    and while a mounted wrapper still waits for the ready event its own
    player has not been given a source yet. *)
Theorem src_once_per_construction
  (lv : option nat) (events : list Event)
  (slot : Slot) (s : Store) (t : list Call) :
  run events None (boot lv) = (slot, s, t) ->
  (forall p, ~ In (Rerender p) events) ->
  count is_src t + awaiting_ready slot <= count is_videojs t.
Proof.
  intros R NR.
  set (J := fun (_ : Store) (slot : Slot) (t : list Call) =>
              count is_src t + awaiting_ready slot <= count is_videojs t).
  change (J s slot t).
  apply (reachable_invariant J lv events slot s t); [ | | exact R].
  - unfold J. intros e s0 sl0 t0 sl1 s1 new M I A E. rewrite !count_app.
    destruct e as [p| |p|tg].
    + destruct sl0 as [c|]; simpl in E.
      * injection E as <- _ <-. unfold count in *; simpl in *; lia.
      * destruct s0 as [n l0 l]. unfold bind in E. rewrite mount_eq in E.
        remember (mount_calls l0 n) as mc eqn:Emc in E.
        simpl in E. injection E as <- _ <-. rewrite app_nil_r. subst mc.
        destruct (count_mount_calls l0 n) as [-> [_ [-> _]]].
        unfold count in *; simpl in *; lia.
    + destruct sl0 as [c|]; simpl in E.
      * destruct (inv_refs _ _ _ I c eq_refl) as [el [q [V [P C]]]].
        unfold bind in E. rewrite (unmount_eq c el q s0 V P C) in E.
        simpl in E. injection E as <- _ <-.
        unfold count in *; simpl in *; lia.
      * injection E as <- _ <-. unfold count in *; simpl in *; lia.
    + destruct (NR p M).
    + destruct tg as [x|q|q name].
      * rewrite (fire_click_eq s0 sl0 t0 x I) in E. injection E as <- _ <-.
        set (new := flat_map handler_calls (handlers (on_click x) (subs s0))).
        rewrite (count_zero is_src new) by (intros y; apply rate_calls_not_src).
        rewrite (count_zero is_videojs new).
        -- lia.
        -- intros y Y. apply in_flat_map in Y as [h [_ Y]].
           destruct h; simpl in Y; [|contradiction]. now destruct Y as [<-|[]].
      * rewrite (fire_ready_eq s0 sl0 t0 q I) in E. destruct sl0 as [c|].
        -- destruct (owns q c); simpl in E.
           ++ destruct (isReady c) eqn:Rd; simpl in E; injection E as <- _ <-;
                unfold count in *; simpl in *; rewrite ?Rd in *; lia.
           ++ injection E as <- _ <-. unfold count in *; simpl in *; lia.
        -- injection E as <- _ <-. unfold count in *; simpl in *; lia.
      * rewrite (fire_event_eq s0 sl0 t0 q name I) in E. injection E as <- _ <-.
        unfold count in *; simpl in *; lia.
  - unfold J, count. simpl. lia.
Qed.

Lemma src_once_per_construction_witness :
  let r := run [Mount demo_props; Fire (on_ready 1); Fire (on_ready 1);
                Unmount; Fire (on_ready 1); Mount demo_props]
               None (boot None) in
  count is_src (snd r) + awaiting_ready (fst (fst r)) <= count is_videojs (snd r).
Proof.
  intros r.
  apply (src_once_per_construction None
           [Mount demo_props; Fire (on_ready 1); Fire (on_ready 1);
            Unmount; Fire (on_ready 1); Mount demo_props]
           (fst (fst r)) (snd (fst r)) (snd r)).
  - vm_compute. reflexivity.
  - intros p H. simpl in H.
    repeat (destruct H as [H|H]; [discriminate H|]). exact H.
Defined.

(** * A further property of the modal host *)

Lemma home_run_invariant (J : Home -> Store -> list Call -> Prop) events :
  (forall e h s t h' s' new,
      HInv h s t -> J h s t ->
      home_step e h s = (h', s', new) -> J h' s' (t ++ new)) ->
  forall h s t h' s' new,
    HInv h s t -> J h s t ->
    home_run events h s = (h', s', new) -> J h' s' (t ++ new).
Proof.
  intros St. induction events as [|e rest IH]; intros h s t h' s' new I H E.
  - injection E as <- <- <-. now rewrite app_nil_r.
  - rewrite home_run_cons in E.
    destruct (home_step e h s) as [[h1 s1] t1] eqn:S1.
    destruct (home_run rest h1 s1) as [[h2 s2] t2] eqn:S2.
    injection E as <- <- <-. rewrite app_assoc.
    apply (IH h1 s1); [ | | exact S2].
    + exact (HInv_step e h s t h1 s1 t1 I S1).
    + exact (St e h s t h1 s1 t1 I H S1).
Qed.

Lemma setIsOpen_no_src b h s t h' s' new x :
  HInv h s t -> setIsOpen b h s = (h', s', new) -> In x new -> is_src x = false.
Proof.
  intros [I O P] E X. unfold setIsOpen in E.
  destruct (Bool.eqb (isOpen h) b).
  - injection E as _ _ <-. contradiction.
  - destruct h as [o [e|]]; destruct b; unfold bind, Dialog in E;
      cbn [content isOpen] in E; unfold slot_of in I; cbn [content option_map] in I.
    + simpl in E. injection E as _ _ <-. contradiction.
    + destruct (inv_refs _ _ _ I _ eq_refl) as [el [q [V [Pl C]]]].
      unfold bind in E. rewrite (unmount_eq (wrapper e) el q s V Pl C) in E.
      simpl in E. injection E as _ _ <-.
      destruct X as [<-|[<-|[]]]; reflexivity.
    + destruct s as [n lv l]. unfold bind in E. rewrite mount_eq in E.
      simpl in E. injection E as _ _ <-. rewrite !app_nil_r in X.
      exact (src_mount_calls lv n x X).
    + simpl in E. injection E as _ _ <-. contradiction.
Qed.

Lemma home_step_src e h s t h' s' new p o :
  HInv h s t -> home_step e h s = (h', s', new) ->
  In (src p o) new -> o = hlsSource VIDEO_URL.
Proof.
  intros HI E X.
  assert (N : forall b h1 s1 n1, setIsOpen b h s = (h1, s1, n1) ->
                                 In (src p o) n1 -> False).
  { intros b h1 s1 n1 E1 X1.
    pose proof (setIsOpen_no_src b h s t h1 s1 n1 _ HI E1 X1) as F.
    discriminate F. }
  destruct e as [|b| |label|tg]; [simpl in E .. |].
  - destruct (N _ _ _ _ E X).
  - destruct (N _ _ _ _ E X).
  - destruct (content h) as [e|] eqn:C.
    + unfold bind, NotifyClose in E.
      rewrite (hinv_props _ _ _ HI e C) in E. simpl in E.
      destruct (setIsOpen false h s) as [[h1 s1] t1] eqn:U.
      injection E as _ _ <-. destruct X as [X|X]; [discriminate X|].
      destruct (N _ _ _ _ U X).
    + injection E as _ _ <-. contradiction.
  - destruct (content h) as [e|]; injection E as _ _ <-; contradiction.
  - unfold home_step, bind in E.
    destruct (step (Fire tg) (slot_of h) s) as [[slot1 s1] t1] eqn:U.
    simpl in E. injection E as _ _ <-. rewrite app_nil_r in X.
    destruct HI as [I O P].
    destruct (step_src _ s _ t slot1 s1 t1 I U)
      as [M|[c [c' [q [Hs [Hc [_ [_ Hn]]]]]]]].
    + apply M in X. discriminate X.
    + rewrite Hn in X. destruct X as [X|[]]. injection X as _ <-.
      destruct (step_props _ s _ t slot1 s1 t1 c' I U Hc)
        as [[c0 [Hs0 ->]]|[p0 [[He|He] _]]]; try discriminate He.
      unfold slot_of in Hs0. destruct (content h) as [e|] eqn:C; [|discriminate Hs0].
      simpl in Hs0. injection Hs0 as <-. now rewrite (P e eq_refl).
Qed.

(** X12. The page plays one stream only: in every run of Home, every [src]
    call that reaches a widget carries the fixed [VIDEO_URL] with the type
    application/x-mpegURL, however often the modal is opened and closed. *)
Theorem page_plays_fixed_url
  (lv : option nat) (events : list HomeEvent)
  (h : Home) (s : Store) (t : list Call) (p : Id) (o : JSVal) :
  home_run events home_init (boot lv) = (h, s, t) ->
  In (src p o) t ->
  o = JObj [ ("src", JStr VIDEO_URL); ("type", JStr "application/x-mpegURL") ].
Proof.
  intros R H.
  set (J := fun (_ : Home) (_ : Store) (t : list Call) =>
              forall p o, In (src p o) t -> o = hlsSource VIDEO_URL).
  assert (K : J h s t).
  { apply (home_run_invariant J events) with (h := home_init) (s := boot lv)
                                              (t := []) (new := t).
    - intros e h0 s0 t0 h1 s1 new I A E p0 o0 H0.
      apply in_app_or in H0 as [H0|H0]; [exact (A _ _ H0)|].
      exact (home_step_src e h0 s0 t0 h1 s1 new p0 o0 I E H0).
    - apply HInv_boot.
    - intros p0 o0 [].
    - exact R. }
  exact (K p o H).
Qed.

Lemma page_plays_fixed_url_witness :
  hlsSource VIDEO_URL =
  JObj [ ("src", JStr VIDEO_URL); ("type", JStr "application/x-mpegURL") ].
Proof.
  apply (page_plays_fixed_url None
           [ClickStart; Widget (on_ready 1); OpenChange false; ClickStart;
            Widget (on_ready 8)]
           (fst (fst (home_run [ClickStart; Widget (on_ready 1); OpenChange false;
                                ClickStart; Widget (on_ready 8)]
                               home_init (boot None))))
           (snd (fst (home_run [ClickStart; Widget (on_ready 1); OpenChange false;
                                ClickStart; Widget (on_ready 8)]
                               home_init (boot None))))
           (mount_calls None 0 ++
            [ src 1 (hlsSource VIDEO_URL); removeChild 0; dispose 1 ] ++
            mount_calls None 7 ++ [ src 8 (hlsSource VIDEO_URL) ])
           8 (hlsSource VIDEO_URL)).
  - vm_compute. reflexivity.
  - apply in_or_app. right. simpl. auto 20.
Defined.
